(** * Column detection on a page: a shallow embedding of [multi_column.py]

    The development follows [column_boxes] of
    [Version_2_Name_Entity_Recognition/multi_column.py]: candidate filtering,
    right extension, column merging and the final cleanup, with the nested
    helper functions under the names they have in the source.

    Python lists that are updated by index are lists with stdpp's lookup
    [l !! i], insert [<[i:=x]> l] and [delete i l]; a list that may hold
    [None] is a [list (option IRect)]; exceptions are an error monad. *)

From Stdlib Require Import ZArith Lia Bool String Ascii Sorted.
From stdpp Require Import base tactics option list.
Import ListNotations.
Local Open Scope Z_scope.

(** ** Rectangles of the PDF library *)

Module Fitz.

(** Modelled from the spec: the rectangle type [fitz.IRect] belongs to the
    PDF library, which is not part of the repository.  The data model of the
    specification asks for union (smallest rectangle containing both),
    intersection, containment (the corners of the inner rectangle lie
    within the outer one), an emptiness test and equality; the definitions
    below give them on integer coordinates, with the library's convention
    that a rectangle is empty when [x0 >= x1] or [y0 >= y1] and that an
    empty operand contributes nothing to a union.  Coordinates are page
    coordinates, well inside the range of the library's sentinel values. *)
Record IRect : Type := mkIRect { x0 : Z; y0 : Z; x1 : Z; y1 : Z }.

#[global] Instance IRect_eq_dec : EqDecision IRect.
Proof. solve_decision. Defined.

Definition FZ_MIN_INF_RECT : Z := -2147483648.
Definition FZ_MAX_INF_RECT : Z := 2147483520.

(** Modelled from the spec: [fitz.EMPTY_IRECT()] of the PDF library, the
    empty rectangle used as a sentinel. *)
Definition EMPTY_IRECT : IRect :=
  mkIRect FZ_MAX_INF_RECT FZ_MAX_INF_RECT FZ_MIN_INF_RECT FZ_MIN_INF_RECT.

(** Modelled from the spec: [r.is_empty] of the PDF library, the emptiness
    test. *)
Definition is_empty (r : IRect) : bool :=
  (x1 r <=? x0 r) || (y1 r <=? y0 r).

(** Modelled from the spec: [a == b] of the PDF library, equality; all four
    coordinates agree. *)
Definition irect_eqb (a b : IRect) : bool :=
  (x0 a =? x0 b) && (y0 a =? y0 b) && (x1 a =? x1 b) && (y1 a =? y1 b).

(** Modelled from the spec: [a & b] of the PDF library, intersection. *)
Definition irect_and (a b : IRect) : IRect :=
  if is_empty b then b
  else if is_empty a then a
  else mkIRect (Z.max (x0 a) (x0 b)) (Z.max (y0 a) (y0 b))
               (Z.min (x1 a) (x1 b)) (Z.min (y1 a) (y1 b)).

(** Modelled from the spec: [a | b] of the PDF library, union; the smallest
    rectangle containing both when neither is empty. *)
Definition irect_or (a b : IRect) : IRect :=
  if is_empty b then a
  else if is_empty a then b
  else mkIRect (Z.min (x0 a) (x0 b)) (Z.min (y0 a) (y0 b))
               (Z.max (x1 a) (x1 b)) (Z.max (y1 a) (y1 b)).

(** Modelled from the spec: [r in a] of the PDF library, containment; the
    corners of [r] lie within [a]. *)
Definition contains (a r : IRect) : bool :=
  (x0 a <=? x0 r) && (x0 r <=? x1 r) && (x1 r <=? x1 a) &&
  (y0 a <=? y0 r) && (y0 r <=? y1 r) && (y1 r <=? y1 a).

(** [temp = +bb; temp.x1 = width] *)
Definition set_x1 (bb : IRect) (width : Z) : IRect :=
  mkIRect (x0 bb) (y0 bb) width (y1 bb).

(** Modelled from the spec: [r.width] of the PDF library. *)
Definition rect_width (r : IRect) : Z := Z.max 0 (x1 r - x0 r).

End Fitz.
Export Fitz.

(** ** Python values: exceptions, strings, sorting, indexing *)

Module Py.

Inductive exn : Type := KeyError | IndexError.

Inductive result (A : Type) : Type :=
| Ok (a : A)
| Raise (e : exn).
Arguments Ok {A} a.
Arguments Raise {A} e.

Definition bind {A B : Type} (m : result A) (k : A -> result B) : result B :=
  match m with
  | Ok a => k a
  | Raise e => Raise e
  end.

(** A Python [str] is the list of its code points, a [list N]; [str_of]
    gives the code points of a literal of 8-bit characters. *)
Definition str_of (s : string) : list N :=
  N_of_ascii <$> list_ascii_of_string s.

(** The code points that [str.strip()] removes: the whitespace of
    [str.isspace], U+0009..U+000D, U+001C..U+0020, U+0085, U+00A0, U+1680,
    U+2000..U+200A, U+2028, U+2029, U+202F, U+205F and U+3000. *)
Definition is_space (c : N) : bool :=
  (((9 <=? c) && (c <=? 13)) || ((28 <=? c) && (c <=? 32)) ||
   (c =? 133) || (c =? 160) || (c =? 5760) ||
   ((8192 <=? c) && (c <=? 8202)) || (c =? 8232) || (c =? 8233) ||
   (c =? 8239) || (c =? 8287) || (c =? 12288))%N.

Fixpoint lstrip (s : list N) : list N :=
  match s with
  | [] => []
  | c :: s' => if is_space c then lstrip s' else s
  end.

Fixpoint rstrip (s : list N) : list N :=
  match s with
  | [] => []
  | c :: s' =>
      match rstrip s' with
      | [] => if is_space c then [] else [c]
      | r => c :: r
      end
  end.

(** [s.strip()] *)
Definition strip (s : list N) : list N := rstrip (lstrip s).

(** [sorted(l, key=...)]: the sort is stable, so the result is fixed by the
    order of the keys alone; [le a b] reads [key a <= key b]. *)
Section Sorted.
Context {A : Type} (le : A -> A -> bool).

Fixpoint insert_sorted (x : A) (l : list A) : list A :=
  match l with
  | [] => [x]
  | y :: l' => if le x y then x :: y :: l' else y :: insert_sorted x l'
  end.

Fixpoint sorted (l : list A) : list A :=
  match l with
  | [] => []
  | x :: l' => insert_sorted x (sorted l')
  end.
End Sorted.

(** [l[i]] with Python's negative indices. *)
Definition index {A : Type} (l : list A) (i : Z) : option A :=
  if i <? 0
  then (if Z.of_nat (length l) + i <? 0 then None
        else l !! Z.to_nat (Z.of_nat (length l) + i))
  else l !! Z.to_nat i.

(** [[b for b in l if b is not None]] *)
Definition not_none {A : Type} (l : list (option A)) : list A := omap id l.

End Py.
Export Py.

#[global] Instance result_ret : MRet result := fun A a => Ok a.
#[global] Instance result_bind : MBind result :=
  fun A B k m => Py.bind m k.

(** ** Input of the extraction collaborator *)

(** A span dictionary; only ["text"] is read. *)
Record Span : Type := mkSpan { text : list N }.

(** A line dictionary: ["bbox"], ["dir"] and ["spans"]; the last key may be
    missing. *)
Record Line : Type := mkLine {
  l_bbox : IRect;
  l_dir : Z * Z;
  l_spans : option (list Span)
}.

(** A block dictionary: ["bbox"] and ["lines"]; the last key may be
    missing. *)
Record Block : Type := mkBlock {
  b_bbox : IRect;
  b_lines : option (list Line)
}.

(** The page object: [page.rect], the rectangles that
    [page.get_image_rects] yields for the images of [page.get_images()],
    and [page.get_text("dict", clip=...)["blocks"]] as a function of the
    clip rectangle. *)
Record Page : Type := mkPage {
  rect : IRect;
  image_rects : list IRect;
  get_text_blocks : IRect -> list Block
}.

(** ** The helper functions nested in [column_boxes] *)

(** [intersects_bboxes(bb, bboxes)] *)
Fixpoint intersects_bboxes (bb : IRect) (bboxes : list IRect) : bool :=
  match bboxes with
  | [] => false
  | bbox :: rest =>
      if negb (is_empty (irect_and bb bbox)) then true
      else intersects_bboxes bb rest
  end.

(** [in_bbox(bb, bboxes)] *)
Fixpoint in_bbox (bb : IRect) (bboxes : list IRect) : bool :=
  match bboxes with
  | [] => false
  | bbox :: rest => if contains bbox bb then true else in_bbox bb rest
  end.

Section Closure.
(** [vert_bboxes] is a variable of the enclosing function that
    [can_extend] reads; it is complete when [can_extend] is first called. *)
Variable vert_bboxes : list IRect.

(** The test of one entry [b] in the loop of [can_extend]. *)
Definition entry_ok (temp bb : IRect) (b : option IRect) : bool :=
  negb (intersects_bboxes temp vert_bboxes) &&
  match b with
  | None => true
  | Some b' => irect_eqb b' bb || is_empty (irect_and temp b')
  end.

(** [can_extend(temp, bb, bboxlist)] *)
Fixpoint can_extend (temp bb : IRect) (bboxlist : list (option IRect)) : bool :=
  match bboxlist with
  | [] => true
  | b :: rest =>
      if entry_ok temp bb b then can_extend temp bb rest else false
  end.

(** One round of the loop of [extend_right], at index [i]. *)
Definition extend_at (width : Z) (vert img : list IRect)
    (bboxes : list IRect) (i : nat) : list IRect :=
  match bboxes !! i with
  | None => bboxes
  | Some bb =>
      if in_bbox bb img then bboxes
      else
        let temp := set_x1 bb width in
        if intersects_bboxes temp (vert ++ img) then bboxes
        else if can_extend temp bb (Some <$> bboxes)
             then <[i := temp]> bboxes
             else bboxes
  end.

(** [extend_right(bboxes, width, vert_bboxes, img_bboxes)]; the list holds
    rectangles only, the loop keeps its length, and the final
    comprehension drops the [None] entries. *)
Definition extend_right (bboxes : list IRect) (width : Z)
    (vert img : list IRect) : list IRect :=
  let final :=
    foldl (extend_at width vert img) bboxes (seq 0 (length bboxes)) in
  not_none (Some <$> final).

(** The loop [for j in range(len(nblocks))] of the merging phase, from
    index [j] on ([todo] is [nblocks[j:]]): [Some (j, temp)] when the loop
    leaves through [break], [None] when it runs to its end, where [check]
    is [False]. *)
Fixpoint scan_nblocks (bb : IRect) (nblocks : list IRect) (j : nat)
    (todo : list IRect) : option (nat * IRect) :=
  match todo with
  | [] => None
  | nbb :: rest =>
      if (x1 nbb <? x0 bb) || (x1 bb <? x0 nbb)
      then scan_nblocks bb nblocks (S j) rest
      else
        let temp := irect_or bb nbb in
        if can_extend temp nbb (Some <$> nblocks) then Some (j, temp)
        else scan_nblocks bb nblocks (S j) rest
  end.

(** The body of [for i, bb in enumerate(bboxes)]: the entry read at index
    [i] has not been consumed yet, so it is a rectangle. *)
Definition join_step (i : nat) (bb : IRect)
    (nblocks : list IRect) (bboxes : list (option IRect))
    : list IRect * list (option IRect) :=
  let '(nblocks1, j, temp) :=
    match scan_nblocks bb nblocks 0 nblocks with
    | Some (j, temp) => (nblocks, j, temp)
    | None =>
        (* nblocks.append(bb); j = len(nblocks) - 1; temp = nblocks[j] *)
        let nb := nblocks ++ [bb] in (nb, (length nb - 1)%nat, bb)
    end in
  let nblocks2 :=
    if can_extend temp bb bboxes then <[j := temp]> nblocks1
    else nblocks1 ++ [bb] in
  (nblocks2, <[i := None]> bboxes).

Fixpoint join_loop (i : nat) (todo : list IRect)
    (nblocks : list IRect) (bboxes : list (option IRect)) : list IRect :=
  match todo with
  | [] => nblocks
  | bb :: rest =>
      let '(nblocks', bboxes') := join_step i bb nblocks bboxes in
      join_loop (S i) rest nblocks' bboxes'
  end.

(** Part 2 of [column_boxes] on a non-empty list [b0 :: rest]. *)
Definition join_columns (b0 : IRect) (rest : list IRect) : list IRect :=
  join_loop 0 rest [b0] (Some <$> rest).
End Closure.

(** ** Cleanup: [clean_nblocks] *)

(** Part 1, the loop [for i in range(start, -1, -1)] over the list that it
    shortens; [nblocks[i - 1]] is Python indexing, so at [i = 0] it reads
    the last entry. *)
Fixpoint dedup_loop (idx : list nat) (nblocks : list IRect)
    : result (list IRect) :=
  match idx with
  | [] => Ok nblocks
  | i :: idx' =>
      match index nblocks (Z.of_nat i), index nblocks (Z.of_nat i - 1) with
      | Some bb1, Some bb0 =>
          dedup_loop idx'
            (if irect_eqb bb0 bb1 then delete i nblocks else nblocks)
      | _, _ => Raise IndexError
      end
  end.

(** [lambda b: b.x0] as the order of [sorted]. *)
Definition le_x0 (a b : IRect) : bool := x0 a <=? x0 b.

(** [nblocks[i0 : i1 + 1] = sorted(nblocks[i0 : i1 + 1], key=lambda b: b.x0)] *)
Definition sort_slice (nblocks : list IRect) (i0 i1 : Z) : list IRect :=
  let lo := Z.to_nat i0 in
  let hi := Z.to_nat (i1 + 1) in
  take lo nblocks ++ sorted le_x0 (drop lo (take hi nblocks)) ++
  drop hi nblocks.

(** [if i1 > i0: nblocks[i0 : i1 + 1] = sorted(...)] *)
Definition sort_segment (nblocks : list IRect) (i0 i1 : Z) : list IRect :=
  if i0 <? i1 then sort_slice nblocks i0 i1 else nblocks.

(** The state of part 2: the list, the bottom [y1] of the current segment
    and the indices [i0], [i1]. *)
Record repair_state : Type := mkRepair {
  rs_nblocks : list IRect;
  rs_y1 : Z;
  rs_i0 : Z;
  rs_i1 : Z
}.

(** The body of [for i in range(1, len(nblocks))]. *)
Definition repair_step (st : repair_state) (i : nat) : result repair_state :=
  match rs_nblocks st !! i with
  | None => Raise IndexError
  | Some b1 =>
      if 10 <? Z.abs (y1 b1 - rs_y1 st)
      then
        let nblocks := sort_segment (rs_nblocks st) (rs_i0 st) (rs_i1 st) in
        Ok (mkRepair nblocks (y1 b1) (Z.of_nat i) (Z.of_nat i))
      else Ok (mkRepair (rs_nblocks st) (rs_y1 st) (rs_i0 st) (Z.of_nat i))
  end.

Fixpoint repair_loop (idx : list nat) (st : repair_state)
    : result repair_state :=
  match idx with
  | [] => Ok st
  | i :: idx' => st' ← repair_step st i; repair_loop idx' st'
  end.

(** Part 2 of [clean_nblocks]. *)
Definition repair_sequence (nblocks : list IRect) : result (list IRect) :=
  match nblocks !! 0%nat with
  | None => Raise IndexError
  | Some first =>
      st ← repair_loop (seq 1 (length nblocks - 1))
             (mkRepair nblocks (y1 first) 0 (-1));
      Ok (sort_segment (rs_nblocks st) (rs_i0 st) (rs_i1 st))
  end.

(** [clean_nblocks(nblocks)] *)
Definition clean_nblocks (nblocks : list IRect) : result (list IRect) :=
  let blen := length nblocks in
  if (blen <? 2)%nat then Ok nblocks
  else
    nblocks1 ← dedup_loop (rev (seq 0 blen)) nblocks;
    repair_sequence nblocks1.

(** ** Candidate filtering *)

(** [text = "".join([s["text"].strip() for s in line["spans"]])] *)
Definition line_text (spans : list Span) : list N :=
  concat ((fun s => strip (text s)) <$> spans).

(** The loop [for line in b["lines"]] that builds [srect]. *)
Fixpoint build_srect (lines : list Line) (srect : IRect) : result IRect :=
  match lines with
  | [] => Ok srect
  | line :: rest =>
      let lbbox := l_bbox line in
      match l_spans line with
      | None => Raise KeyError
      | Some spans =>
          build_srect rest
            (if (1 <? length (line_text spans))%nat
             then irect_or srect lbbox else srect)
      end
  end.

(** The lists [bboxes] and [vert_bboxes] that the block loop fills. *)
Record filtered : Type := mkFiltered {
  f_bboxes : list IRect;
  f_vert : list IRect
}.

(** The body of [for b in blocks]. *)
Definition filter_block (no_image_text : bool) (img_bboxes : list IRect)
    (st : filtered) (b : Block) : result filtered :=
  let bbox := b_bbox b in
  if no_image_text && in_bbox bbox img_bboxes then Ok st
  else
    match b_lines b with
    | None => Raise KeyError
    | Some [] => Ok st
    | Some ((line0 :: _) as lines) =>
        if negb (bool_decide (l_dir line0 = (1, 0)))
        then Ok (mkFiltered (f_bboxes st) (f_vert st ++ [bbox]))
        else
          srect ← build_srect lines EMPTY_IRECT;
          if negb (is_empty srect)
          then Ok (mkFiltered (f_bboxes st ++ [srect]) (f_vert st))
          else Ok st
    end.

Fixpoint filter_blocks (no_image_text : bool) (img_bboxes : list IRect)
    (blocks : list Block) (st : filtered) : result filtered :=
  match blocks with
  | [] => Ok st
  | b :: rest =>
      st' ← filter_block no_image_text img_bboxes st b;
      filter_blocks no_image_text img_bboxes rest st'
  end.

(** [lambda k: (k.y0, k.x0)] as the order of [bboxes.sort]. *)
Definition le_top_left (a b : IRect) : bool :=
  (y0 a <? y0 b) || ((y0 a =? y0 b) && (x0 a <=? x0 b)).

(** ** [column_boxes] *)

(** Everything after the block list is known: filtering, sorting, right
    extension, merging and cleanup. *)
Definition columns_of (width : Z) (img_bboxes : list IRect)
    (blocks : list Block) (no_image_text : bool) : result (list IRect) :=
  st ← filter_blocks no_image_text img_bboxes blocks (mkFiltered [] []);
  let vert_bboxes := f_vert st in
  let bboxes := sorted le_top_left (f_bboxes st) in
  let bboxes := extend_right vert_bboxes bboxes width vert_bboxes img_bboxes in
  match bboxes with
  | [] => Ok []
  | b0 :: rest => clean_nblocks (join_columns vert_bboxes b0 rest)
  end.

(** [clip = +page.rect; clip.y1 -= footer_margin; clip.y0 += header_margin] *)
Definition page_clip (page : Page) (footer_margin header_margin : Z) : IRect :=
  let clip := rect page in
  mkIRect (x0 clip) (y0 clip + header_margin)
          (x1 clip) (y1 clip - footer_margin).

(** [column_boxes(page, footer_margin, header_margin, no_image_text)] *)
Definition column_boxes (page : Page) (footer_margin header_margin : Z)
    (no_image_text : bool) : result (list IRect) :=
  let clip := page_clip page footer_margin header_margin in
  let img_bboxes := image_rects page in
  let blocks := get_text_blocks page clip in
  columns_of (rect_width (rect page)) img_bboxes blocks no_image_text.

(** ** Notions used in the statements *)

(** What [extend_right] may do to one entry. *)
Definition kept_or_widened (width : Z) (bb r : IRect) : Prop :=
  r = bb \/ r = set_x1 bb width.

(** The condition on one tracked entry [b] that [can_extend] checks. *)
Definition compatible_entry (vert : list IRect) (temp bb : IRect)
    (b : option IRect) : Prop :=
  intersects_bboxes temp vert = false /\
  (b = None \/ b = Some bb \/
   exists b', b = Some b' /\ is_empty (irect_and temp b') = true).

(** The reading of the test in which meeting a vertical-text rectangle
    excuses an entry: each entry is disjoint from the candidate, or is the
    rectangle being extended or a consumed placeholder, or the candidate
    meets a vertical-text rectangle. *)
Definition escape_hatch_entry (vert : list IRect) (temp bb : IRect)
    (b : option IRect) : Prop :=
  (exists b', b = Some b' /\ is_empty (irect_and temp b') = true) \/
  (b = None \/ b = Some bb) \/
  intersects_bboxes temp vert = true.

(** The horizontal spans of [bb] and [nbb] overlap: the negation of the test
    [nbb.x1 < bb.x0 or bb.x1 < nbb.x0]. *)
Definition h_overlap (bb nbb : IRect) : Prop :=
  ~ x1 nbb < x0 bb /\ ~ x1 bb < x0 nbb.

(** Rectangles that arise from the input rectangles by unions
    [bb | nbb] of operands whose horizontal spans overlap. *)
Inductive merged_from (inputs : list IRect) : IRect -> Prop :=
| merged_input (bb : IRect) :
    bb ∈ inputs -> merged_from inputs bb
| merged_union (bb nbb : IRect) :
    bb ∈ inputs -> merged_from inputs nbb -> h_overlap bb nbb ->
    merged_from inputs (irect_or bb nbb).

(** The order that [sorted(..., key=lambda b: b.x0)] establishes. *)
Definition x0_le (a b : IRect) : Prop := x0 a <= x0 b.

(** The rows that part 2 of [clean_nblocks] forms: a row is opened by a
    rectangle and takes the following rectangles as long as their bottom is
    within 10 units of the bottom of the rectangle that opened it. *)
Fixpoint rows_from (y : Z) (cur : list IRect) (l : list IRect)
    : list (list IRect) :=
  match l with
  | [] => [cur]
  | b :: l' =>
      if 10 <? Z.abs (y1 b - y) then cur :: rows_from (y1 b) [b] l'
      else rows_from y (cur ++ [b]) l'
  end.

Definition rows (l : list IRect) : list (list IRect) :=
  match l with
  | [] => []
  | b :: l' => rows_from (y1 b) [b] l'
  end.

(** A row: its first rectangle, and after it rectangles whose bottoms are
    within 10 units of the first one's. *)
Definition is_row (r : list IRect) : Prop :=
  exists b rest, r = b :: rest /\
    Forall (fun c => Z.abs (y1 c - y1 b) <= 10) rest.

(** In a list sorted by left edge, a rectangle with a smaller left edge
    stands before one with a larger left edge. *)
Definition left_first (row : list IRect) : Prop :=
  forall p q a b,
    row !! p = Some a -> row !! q = Some b -> x0 a < x0 b -> (p < q)%nat.

(** A line qualifies when its joined, stripped text has more than one
    character. *)
Definition qualifies (line : Line) : bool :=
  match l_spans line with
  | Some spans => (1 <? length (line_text spans))%nat
  | None => false
  end.

(** The union of a list of rectangles, from the empty rectangle on. *)
Definition union_of (rects : list IRect) : IRect :=
  foldl irect_or EMPTY_IRECT rects.

(** An entry after right extension: the rectangle itself, or its widened
    copy, which then meets none of the obstacles [obst]. *)
Definition kept_or_clear (width : Z) (obst : list IRect) (bb r : IRect)
    : Prop :=
  r = bb \/ (r = set_x1 bb width /\ intersects_bboxes r obst = false).

(** A rectangle made by a merging round: the union [bb | nbb] of an input
    rectangle and a column whose horizontal spans overlap, and it meets no
    vertical-text rectangle. *)
Definition clear_union (vert inputs : list IRect) (r : IRect) : Prop :=
  exists bb nbb,
    bb ∈ inputs /\ merged_from inputs nbb /\ h_overlap bb nbb /\
    r = irect_or bb nbb /\ intersects_bboxes r vert = false.

(** A column after merging: an input rectangle, or a union made by a
    merging round. *)
Definition input_or_union (vert inputs : list IRect) (r : IRect) : Prop :=
  r ∈ inputs \/ clear_union vert inputs r.

(** A horizontal line with one span. *)
Definition text_line (r : IRect) (t : string) : Line :=
  mkLine r (1, 0) (Some [mkSpan (str_of t)]).

(** A horizontal block with one line of text ["ab"]. *)
Definition text_block (r : IRect) : Block :=
  mkBlock r (Some [text_line r "ab"%string]).

(** A block whose first line is not horizontal. *)
Definition vertical_block (r : IRect) : Block :=
  mkBlock r (Some [mkLine r (0, 1) (Some [mkSpan (str_of "ab")])]).

(** A page of the given width and height whose extraction yields [blocks]
    for every clip. *)
Definition page_of (w h : Z) (imgs : list IRect) (blocks : list Block)
    : Page :=
  mkPage (mkIRect 0 0 w h) imgs (fun _ => blocks).

(** A text block that lies partly over an image. *)
Definition page_over_image : Page :=
  page_of 200 400 [mkIRect 0 0 100 100] [text_block (mkIRect 50 50 150 150)].

(** Two full-width text blocks with an image between them. *)
Definition page_image_between : Page :=
  page_of 100 400 [mkIRect 20 40 80 60]
    [text_block (mkIRect 0 0 100 10); text_block (mkIRect 0 90 100 100)].

(** A text block that lies partly over a vertical-text block. *)
Definition page_over_vertical : Page :=
  page_of 100 400 []
    [vertical_block (mkIRect 0 0 50 50); text_block (mkIRect 10 10 60 60)].

(** Three blocks in three columns; the first and the last end at the same
    height, the one between them ends much lower. *)
Definition page_three_columns : Page :=
  page_of 100 400 []
    [text_block (mkIRect 50 0 100 100); text_block (mkIRect 0 10 5 300);
     text_block (mkIRect 10 20 40 100)].

(** Two text blocks with the same rectangle over a vertical-text block. *)
Definition page_twins_over_vertical : Page :=
  page_of 100 400 []
    [vertical_block (mkIRect 0 0 50 50); text_block (mkIRect 10 10 60 60);
     text_block (mkIRect 10 10 60 60)].

(** A block without ["lines"] inside an image. *)
Definition page_no_lines_in_image : Page :=
  page_of 200 400 [mkIRect 0 0 100 100] [mkBlock (mkIRect 10 10 20 20) None].

(** A vertical block with a second line without ["spans"]. *)
Definition page_vertical_no_spans : Page :=
  page_of 200 400 []
    [mkBlock (mkIRect 10 10 20 90)
       (Some [mkLine (mkIRect 10 10 20 50) (0, 1)
                (Some [mkSpan (str_of "ab")]);
              mkLine (mkIRect 10 50 20 90) (0, 1) None])].



(** Obstacle respect as the specification words it. *)
Definition obstacle_respect (page : Page) (fm hm : Z) : Prop :=
  forall st out,
    filter_blocks true (image_rects page)
      (get_text_blocks page (page_clip page fm hm)) (mkFiltered [] []) =
      Ok st ->
    column_boxes page fm hm true = Ok out ->
    forall r, r ∈ out ->
      intersects_bboxes r (image_rects page) = false /\
      intersects_bboxes r (f_vert st) = false.

(** Sort stability as the specification words it. *)
Definition bottoms_ordered (out : list IRect) : Prop :=
  forall p q a b,
    out !! p = Some a -> out !! q = Some b ->
    Z.abs (y1 a - y1 b) <= 10 -> x0 a < x0 b -> (p < q)%nat.

(** The missing-key rule in its unconditional form. *)
Definition raises_on_missing_key (page : Page) (fm hm : Z) (nit : bool)
    : Prop :=
  (exists b, b ∈ get_text_blocks page (page_clip page fm hm) /\
     (b_lines b = None \/
      exists lines line,
        b_lines b = Some lines /\ line ∈ lines /\ l_spans line = None)) ->
  column_boxes page fm hm nit = Raise KeyError.

(** What the removal of adjacent duplicates leaves of [l] when [prev]
    stands before it: a rectangle goes when it equals the one before it. *)
Fixpoint adjacent_dedup_from (prev : IRect) (l : list IRect) : list IRect :=
  match l with
  | [] => []
  | b :: l' =>
      if irect_eqb prev b then adjacent_dedup_from b l'
      else b :: adjacent_dedup_from b l'
  end.

Definition adjacent_dedup (l : list IRect) : list IRect :=
  match l with
  | [] => []
  | a :: l' => a :: adjacent_dedup_from a l'
  end.

(** The effect of the last round of the duplicate loop, at [i = 0]: the
    first rectangle goes when the last one equals it. *)
Definition drop_wrapped (d : list IRect) : list IRect :=
  match d, last d with
  | a :: t, Some z => if irect_eqb z a then t else d
  | _, _ => d
  end.

(** The three tests that [extend_right] makes for the entry [bb] while the
    list is [state]: not inside an image, the widened copy clear of the
    obstacles, and the widened copy compatible with the list. *)
Definition extends_at (vert : list IRect) (width : Z) (v img : list IRect)
    (state : list IRect) (bb : IRect) : bool :=
  negb (in_bbox bb img) &&
  negb (intersects_bboxes (set_x1 bb width) (v ++ img)) &&
  can_extend vert (set_x1 bb width) bb (Some <$> state).

(** A string of whitespace only. *)
Fixpoint all_space (s : list N) : bool :=
  match s with
  | [] => true
  | c :: s' => is_space c && all_space s'
  end.

(** All entries of a list are one and the same rectangle. *)
Definition all_equal (l : list IRect) : Prop :=
  exists a, Forall (fun b => b = a) l.

(** No entry equals the entry before it. *)
Definition no_adjacent_equal (l : list IRect) : Prop :=
  forall i a b, l !! i = Some a -> l !! S i = Some b -> a <> b.

(** A rectangle that filtering may hand on as a candidate: it is not
    empty, and it is the union of the qualifying lines of a block of the
    input whose first line is horizontal. *)
Definition candidate_of (blocks : list Block) (r : IRect) : Prop :=
  is_empty r = false /\
  exists b line0 rest,
    b ∈ blocks /\ b_lines b = Some (line0 :: rest) /\
    l_dir line0 = (1, 0) /\
    r = union_of
          (l_bbox <$> filter (fun l => qualifies l = true) (line0 :: rest)).

(** A rectangle that filtering may record as vertical text: the rectangle
    of a block of the input whose first line is not horizontal. *)
Definition vertical_of (blocks : list Block) (v : IRect) : Prop :=
  exists b line0 rest,
    b ∈ blocks /\ b_bbox b = v /\ b_lines b = Some (line0 :: rest) /\
    l_dir line0 <> (1, 0).

(** A line whose spans hold whitespace only. *)
Definition blank_line (line : Line) : Prop :=
  exists spans,
    l_spans line = Some spans /\
    Forall (fun s => all_space (text s) = true) spans.

(** Some column of [cols] contains the rectangle [r]. *)
Definition covered (cols : list IRect) (r : IRect) : Prop :=
  exists c, c ∈ cols /\ contains c r = true.

(** The horizontal spans of [bb] and [nbb] are disjoint: the test
    [nbb.x1 < bb.x0 or bb.x1 < nbb.x0] of the merging loop. *)
Definition h_disjoint (bb nbb : IRect) : Prop :=
  x1 nbb < x0 bb \/ x1 bb < x0 nbb.

(** ** Basic facts about the helpers *)

Lemma irect_eqb_eq (a b : IRect) : irect_eqb a b = true <-> a = b.
Proof.
  unfold irect_eqb. rewrite !andb_true_iff, !Z.eqb_eq.
  destruct a, b; simpl; split.
  - intros [[[-> ->] ->] ->]; reflexivity.
  - intros [= -> -> -> ->]; auto.
Qed.

Lemma irect_eqb_refl (a : IRect) : irect_eqb a a = true.
Proof. apply irect_eqb_eq; reflexivity. Qed.

Lemma not_none_Some {A : Type} (l : list A) : not_none (Some <$> l) = l.
Proof.
  unfold not_none. induction l as [|a l IH]; simpl; [reflexivity|].
  f_equal; exact IH.
Qed.

Lemma intersects_bboxes_false (bb : IRect) (bboxes : list IRect) :
  intersects_bboxes bb bboxes = false <->
  forall b, b ∈ bboxes -> is_empty (irect_and bb b) = true.
Proof.
  induction bboxes as [|c l IH]; simpl.
  - split; [intros _ b Hb; inversion Hb | reflexivity].
  - destruct (is_empty (irect_and bb c)) eqn:E; simpl.
    + rewrite IH. split.
      * intros H b Hb. apply elem_of_cons in Hb as [->|Hb]; auto.
      * intros H b Hb. apply H. apply elem_of_cons; auto.
    + split; [discriminate|].
      intros H. specialize (H c (list_elem_of_here c l)). congruence.
Qed.

Lemma intersects_bboxes_app (bb : IRect) (l1 l2 : list IRect) :
  intersects_bboxes bb (l1 ++ l2) =
  intersects_bboxes bb l1 || intersects_bboxes bb l2.
Proof.
  induction l1 as [|c l1 IH]; simpl; [reflexivity|].
  destruct (negb (is_empty (irect_and bb c))); simpl; auto.
Qed.

Lemma can_extend_Forall (vert : list IRect) (temp bb : IRect)
    (l : list (option IRect)) :
  can_extend vert temp bb l = true <->
  forall b, b ∈ l -> entry_ok vert temp bb b = true.
Proof.
  induction l as [|c l IH]; simpl.
  - split; [intros _ b Hb; inversion Hb | reflexivity].
  - destruct (entry_ok vert temp bb c) eqn:E.
    + rewrite IH. split.
      * intros H b Hb. apply elem_of_cons in Hb as [->|Hb]; auto.
      * intros H b Hb. apply H. apply elem_of_cons; auto.
    + split; [discriminate|].
      intros H. specialize (H c (list_elem_of_here c l)). congruence.
Qed.

(** On a list that is not empty, acceptance means that the candidate
    touches no vertical-text rectangle. *)
Lemma can_extend_no_vert (vert : list IRect) (temp bb : IRect)
    (l : list (option IRect)) :
  l <> [] -> can_extend vert temp bb l = true ->
  intersects_bboxes temp vert = false.
Proof.
  destruct l as [|c l]; [congruence|]. intros _. simpl.
  unfold entry_ok. destruct (intersects_bboxes temp vert); simpl; congruence.
Qed.

(** ** Right extension *)

Lemma set_x1_set_x1 (bb : IRect) (w : Z) : set_x1 (set_x1 bb w) w = set_x1 bb w.
Proof. reflexivity. Qed.

Lemma extend_at_cases (vert : list IRect) (width : Z) (v img : list IRect)
    (cur : list IRect) (i : nat) :
  extend_at vert width v img cur i = cur \/
  exists bb, cur !! i = Some bb /\
    in_bbox bb img = false /\
    intersects_bboxes (set_x1 bb width) (v ++ img) = false /\
    can_extend vert (set_x1 bb width) bb (Some <$> cur) = true /\
    extend_at vert width v img cur i = <[i := set_x1 bb width]> cur.
Proof.
  unfold extend_at. destruct (cur !! i) as [bb|] eqn:E; [|auto].
  destruct (in_bbox bb img) eqn:E1; [auto|].
  destruct (intersects_bboxes (set_x1 bb width) (v ++ img)) eqn:E2; [auto|].
  destruct (can_extend vert (set_x1 bb width) bb (Some <$> cur)) eqn:E3;
    [|auto].
  right. exists bb. auto.
Qed.

Lemma extend_at_frame (vert : list IRect) (width : Z) (v img : list IRect)
    (orig cur : list IRect) (i : nat) :
  Forall2 (kept_or_widened width) orig cur ->
  Forall2 (kept_or_widened width) orig (extend_at vert width v img cur i).
Proof.
  intros HF.
  destruct (extend_at_cases vert width v img cur i)
    as [->|(bb & Hi & _ & _ & _ & ->)]; [exact HF|].
  apply Forall2_same_length_lookup. split.
  - rewrite length_insert. eapply Forall2_length; eauto.
  - intros k a r Ha Hr.
    destruct (decide (i = k)) as [->|Hne].
    + rewrite list_lookup_insert_eq in Hr by (eapply lookup_lt_Some; eauto).
      injection Hr as <-.
      destruct (Forall2_lookup_lr _ _ _ _ _ _ HF Ha Hi) as [->| ->];
        [right; reflexivity | right; apply set_x1_set_x1].
    + rewrite list_lookup_insert_ne in Hr by exact Hne.
      eapply Forall2_lookup_lr; eauto.
Qed.

Lemma extend_loop_frame (vert : list IRect) (width : Z) (v img : list IRect)
    (idx : list nat) (orig cur : list IRect) :
  Forall2 (kept_or_widened width) orig cur ->
  Forall2 (kept_or_widened width) orig
    (foldl (extend_at vert width v img) cur idx).
Proof.
  revert cur. induction idx as [|i idx IH]; intros cur HF; simpl; [exact HF|].
  apply IH, extend_at_frame, HF.
Qed.

(** C7: right extension keeps the length and the order of the list, leaves
    an entry as it is or replaces it by a copy whose right edge [x1] is the
    page width, every other coordinate being unchanged. *)
Theorem extend_right_in_place (vert : list IRect) (bboxes : list IRect)
    (width : Z) (v img : list IRect) :
  length (extend_right vert bboxes width v img) = length bboxes /\
  Forall2
    (fun bb r =>
       r = bb \/
       (x0 r = x0 bb /\ y0 r = y0 bb /\ y1 r = y1 bb /\ x1 r = width))
    bboxes (extend_right vert bboxes width v img).
Proof.
  assert (HF : Forall2 (kept_or_widened width) bboxes
                 (extend_right vert bboxes width v img)).
  { unfold extend_right. rewrite not_none_Some.
    apply extend_loop_frame.
    apply Forall2_same_length_lookup. split; [reflexivity|].
    intros k a r Ha Hr. left. congruence. }
  split.
  - symmetry. eapply Forall2_length; eauto.
  - eapply Forall2_impl; [exact HF|].
    intros bb r [->| ->]; [left; reflexivity | right; simpl; auto].
Qed.

(** ** The compatibility test *)

Lemma entry_ok_compatible (vert : list IRect) (temp bb : IRect)
    (b : option IRect) :
  entry_ok vert temp bb b = true <-> compatible_entry vert temp bb b.
Proof.
  unfold entry_ok, compatible_entry.
  rewrite andb_true_iff, negb_true_iff.
  apply and_iff_compat_l.
  destruct b as [b'|].
  - rewrite orb_true_iff, irect_eqb_eq. split.
    + intros [->|H]; [right; left; reflexivity|].
      right; right. exists b'. auto.
    + intros [H|[[= ->]|(c & [= <-] & H)]]; [discriminate|left|right]; auto.
  - split; auto.
Qed.

(** C1 (as the code has it): the test accepts exactly when, for every
    tracked entry, the candidate meets no vertical-text rectangle and the
    entry is a consumed placeholder, equals the rectangle being extended, or
    is disjoint from the candidate; so a candidate that meets a
    vertical-text rectangle is rejected on every list that is not empty. *)
Theorem can_extend_compatible (vert : list IRect) (temp bb : IRect)
    (l : list (option IRect)) :
  (can_extend vert temp bb l = true <->
   forall b, b ∈ l -> compatible_entry vert temp bb b) /\
  (intersects_bboxes temp vert = true -> l <> [] ->
   can_extend vert temp bb l = false).
Proof.
  split.
  - rewrite can_extend_Forall. split; intros H b Hb.
    + apply entry_ok_compatible, H, Hb.
    + apply entry_ok_compatible, H, Hb.
  - intros Hv Hl. destruct (can_extend vert temp bb l) eqn:E; [|reflexivity].
    rewrite (can_extend_no_vert vert temp bb l Hl E) in Hv. discriminate.
Qed.

(** ** Column merging *)

Lemma scan_nblocks_Some (vert : list IRect) (bb : IRect)
    (nblocks todo : list IRect) (j k : nat) (temp : IRect) :
  scan_nblocks vert bb nblocks j todo = Some (k, temp) ->
  exists nbb,
    (j <= k)%nat /\ todo !! (k - j)%nat = Some nbb /\
    temp = irect_or bb nbb /\ h_overlap bb nbb /\
    can_extend vert temp nbb (Some <$> nblocks) = true.
Proof.
  revert j. induction todo as [|nbb rest IH]; intros j; simpl; [discriminate|].
  destruct ((x1 nbb <? x0 bb) || (x1 bb <? x0 nbb)) eqn:E.
  - intros H. destruct (IH _ H) as (c & Hle & Hk & Ht & Ho & Hc).
    exists c. repeat split; try apply Ho; auto; try lia.
    replace (k - j)%nat with (S (k - S j)) by lia. exact Hk.
  - destruct (can_extend vert (irect_or bb nbb) nbb (Some <$> nblocks)) eqn:C.
    + intros [= <- <-]. exists nbb.
      apply orb_false_iff in E as [E1 E2].
      apply Z.ltb_ge in E1, E2.
      rewrite Nat.sub_diag. unfold h_overlap. repeat split; auto; lia.
    + intros H. destruct (IH _ H) as (c & Hle & Hk & Ht & Ho & Hc).
      exists c. repeat split; try apply Ho; auto; try lia.
      replace (k - j)%nat with (S (k - S j)) by lia. exact Hk.
Qed.

(** The three outcomes of one round of the merging loop. *)
Lemma join_step_cases (vert : list IRect) (i : nat) (bb : IRect)
    (nblocks : list IRect) (bboxes : list (option IRect)) :
  (exists j nbb,
     nblocks !! j = Some nbb /\ h_overlap bb nbb /\
     can_extend vert (irect_or bb nbb) nbb (Some <$> nblocks) = true /\
     can_extend vert (irect_or bb nbb) bb bboxes = true /\
     (join_step vert i bb nblocks bboxes).1 =
       <[j := irect_or bb nbb]> nblocks) \/
  (join_step vert i bb nblocks bboxes).1 = nblocks ++ [bb] \/
  (can_extend vert bb bb bboxes = false /\
   (join_step vert i bb nblocks bboxes).1 = nblocks ++ [bb; bb]).
Proof.
  unfold join_step.
  destruct (scan_nblocks vert bb nblocks 0 nblocks) as [[j temp]|] eqn:E.
  - apply scan_nblocks_Some in E as (nbb & _ & Hj & -> & Ho & Hc).
    rewrite Nat.sub_0_r in Hj.
    destruct (can_extend vert (irect_or bb nbb) bb bboxes) eqn:C; simpl.
    + left. exists j, nbb. auto.
    + right; left. reflexivity.
  - destruct (can_extend vert bb bb bboxes) eqn:C; simpl.
    + right; left.
      rewrite length_app; simpl.
      replace (length nblocks + 1 - 1)%nat with (length nblocks + 0)%nat
        by lia.
      rewrite insert_app_r. reflexivity.
    + right; right. split; [reflexivity|].
      rewrite <- app_assoc. reflexivity.
Qed.

Lemma join_step_merged (vert : list IRect) (inputs : list IRect) (i : nat)
    (bb : IRect) (nblocks : list IRect) (bboxes : list (option IRect)) :
  bb ∈ inputs ->
  Forall (merged_from inputs) nblocks ->
  Forall (merged_from inputs) (join_step vert i bb nblocks bboxes).1.
Proof.
  intros Hbb HF.
  destruct (join_step_cases vert i bb nblocks bboxes)
    as [(j & nbb & Hj & Ho & _ & _ & ->)|[->|[_ ->]]].
  - apply Forall_insert; [exact HF|].
    apply merged_union; auto.
    eapply Forall_lookup_1; eauto.
  - apply Forall_app; split; [exact HF|].
    repeat constructor; exact Hbb.
  - apply Forall_app; split; [exact HF|].
    repeat constructor; exact Hbb.
Qed.

Lemma join_loop_merged (vert : list IRect) (inputs : list IRect)
    (todo : list IRect) (i : nat) (nblocks : list IRect)
    (bboxes : list (option IRect)) :
  (forall bb, bb ∈ todo -> bb ∈ inputs) ->
  Forall (merged_from inputs) nblocks ->
  Forall (merged_from inputs) (join_loop vert i todo nblocks bboxes).
Proof.
  revert i nblocks bboxes.
  induction todo as [|bb rest IH]; intros i nblocks bboxes Hin HF; simpl;
    [exact HF|].
  pose proof (join_step_merged vert inputs i bb nblocks bboxes) as Hs.
  destruct (join_step vert i bb nblocks bboxes) as [nb' bx'] eqn:E.
  apply IH.
  - intros c Hc. apply Hin. apply list_elem_of_further, Hc.
  - apply Hs; [apply Hin, list_elem_of_here | exact HF].
Qed.

(** ** Cleanup: sorting the rows *)

Lemma length_insert_sorted {A : Type} (le : A -> A -> bool) (x : A)
    (l : list A) :
  length (insert_sorted le x l) = S (length l).
Proof.
  induction l as [|y l IH]; simpl; [reflexivity|].
  destruct (le x y); simpl; auto.
Qed.

Lemma length_sorted {A : Type} (le : A -> A -> bool) (l : list A) :
  length (sorted le l) = length l.
Proof.
  induction l as [|x l IH]; simpl; [reflexivity|].
  rewrite length_insert_sorted. auto.
Qed.

Lemma insert_sorted_perm {A : Type} (le : A -> A -> bool) (x : A)
    (l : list A) :
  insert_sorted le x l ≡ₚ x :: l.
Proof.
  induction l as [|y l IH]; simpl; [reflexivity|].
  destruct (le x y); [reflexivity|].
  rewrite IH. apply Permutation_swap.
Qed.

Lemma sorted_perm {A : Type} (le : A -> A -> bool) (l : list A) :
  sorted le l ≡ₚ l.
Proof.
  induction l as [|x l IH]; simpl; [reflexivity|].
  rewrite insert_sorted_perm, IH. reflexivity.
Qed.

Lemma sorted_singleton {A : Type} (le : A -> A -> bool) (l : list A) :
  length l = 1%nat -> sorted le l = l.
Proof. destruct l as [|x [|y l]]; simpl; intros; try lia; reflexivity. Qed.

Lemma insert_sorted_x0 (x : IRect) (l : list IRect) :
  StronglySorted x0_le l -> StronglySorted x0_le (insert_sorted le_x0 x l).
Proof.
  induction l as [|y l IH]; simpl; intros HS.
  - repeat constructor.
  - apply StronglySorted_inv in HS as [HS Hy].
    unfold le_x0. destruct (x0 x <=? x0 y) eqn:E.
    + apply Z.leb_le in E. constructor.
      * constructor; assumption.
      * constructor; [exact E|].
        eapply Forall_impl; [exact Hy|]. unfold x0_le. intros; lia.
    + apply Z.leb_gt in E. constructor; [apply IH, HS|].
      rewrite (insert_sorted_perm le_x0 x l).
      constructor; [unfold x0_le; lia | exact Hy].
Qed.

Lemma sorted_x0 (l : list IRect) : StronglySorted x0_le (sorted le_x0 l).
Proof.
  induction l as [|x l IH]; simpl; [constructor|].
  apply insert_sorted_x0, IH.
Qed.

Lemma rows_from_concat (y : Z) (cur l : list IRect) :
  concat (rows_from y cur l) = cur ++ l.
Proof.
  revert y cur. induction l as [|b l IH]; intros y cur; simpl.
  - rewrite !app_nil_r. reflexivity.
  - destruct (10 <? Z.abs (y1 b - y)); simpl.
    + rewrite IH. reflexivity.
    + rewrite IH, <- app_assoc. reflexivity.
Qed.

Lemma rows_from_is_row (b : IRect) (cur l : list IRect) :
  Forall (fun c => Z.abs (y1 c - y1 b) <= 10) cur ->
  Forall is_row (rows_from (y1 b) (b :: cur) l).
Proof.
  revert b cur. induction l as [|c l IH]; intros b cur Hcur; simpl.
  - constructor; [|constructor]. exists b, cur. auto.
  - destruct (10 <? Z.abs (y1 c - y1 b)) eqn:E.
    + constructor; [exists b, cur; auto|].
      apply IH. constructor.
    + apply Z.ltb_ge in E. apply (IH b (cur ++ [c])).
      apply Forall_app; split; [exact Hcur|].
      constructor; [exact E | constructor].
Qed.

Lemma sort_slice_middle (P cur R : list IRect) (i0 i1 : Z) :
  i0 = Z.of_nat (length P) ->
  i1 + 1 = Z.of_nat (length P + length cur) ->
  sort_slice (P ++ cur ++ R) i0 i1 = P ++ sorted le_x0 cur ++ R.
Proof.
  intros -> H. unfold sort_slice. rewrite H, !Nat2Z.id.
  rewrite take_app_length.
  rewrite (app_assoc P cur R), <- length_app.
  rewrite take_app_length, drop_app_length, drop_app_length.
  reflexivity.
Qed.

(** The loop of part 2, started in the middle: [P] holds the rows that are
    closed and sorted, [cur] the open row, [rest] what is still to come. *)
Lemma repair_loop_rows (rest P cur : list IRect) (y i0 i1 : Z) :
  cur <> [] ->
  i0 = Z.of_nat (length P) ->
  ((i0 <? i1) = true -> i1 + 1 = Z.of_nat (length P + length cur)) ->
  ((i0 <? i1) = false -> length cur = 1%nat) ->
  exists st,
    repair_loop (seq (length P + length cur) (length rest))
      (mkRepair (P ++ cur ++ rest) y i0 i1) = Ok st /\
    sort_segment (rs_nblocks st) (rs_i0 st) (rs_i1 st) =
      P ++ concat (sorted le_x0 <$> rows_from y cur rest).
Proof.
  revert P cur y i0 i1.
  induction rest as [|b rest IH]; intros P cur y i0 i1 Hne Hi0 Hlt Hge.
  - simpl. eexists; split; [reflexivity|]. simpl.
    rewrite !app_nil_r. unfold sort_segment.
    destruct (i0 <? i1) eqn:E.
    + rewrite <- (app_nil_r cur) at 1.
      rewrite (sort_slice_middle P cur [] i0 i1 Hi0 (Hlt eq_refl)).
      rewrite app_nil_r. reflexivity.
    + rewrite (sorted_singleton le_x0 cur (Hge eq_refl)). reflexivity.
  - assert (Hsort : sort_segment (P ++ cur ++ b :: rest) i0 i1 =
                    P ++ sorted le_x0 cur ++ b :: rest).
    { unfold sort_segment. destruct (i0 <? i1) eqn:E.
      - apply sort_slice_middle; auto.
      - rewrite (sorted_singleton le_x0 cur (Hge eq_refl)). reflexivity. }
    cbn [length seq repair_loop]. unfold repair_step at 1.
    cbn [rs_nblocks rs_y1 rs_i0 rs_i1].
    rewrite (app_assoc P cur (b :: rest)).
    rewrite list_lookup_middle by (rewrite length_app; reflexivity).
    rewrite <- (app_assoc P cur (b :: rest)).
    cbn [rows_from].
    destruct (10 <? Z.abs (y1 b - y)) eqn:Far.
    + rewrite Hsort. cbn [mbind result_bind Py.bind].
      destruct (IH (P ++ sorted le_x0 cur) [b] (y1 b)
                  (Z.of_nat (length P + length cur))
                  (Z.of_nat (length P + length cur)))
        as (st & Hst & Hfin).
      * discriminate.
      * rewrite length_app, length_sorted. reflexivity.
      * intros H. apply Z.ltb_lt in H. lia.
      * reflexivity.
      * exists st. split.
        -- rewrite <- Hst. rewrite length_app, length_sorted. simpl.
           rewrite <- app_assoc.
           replace (S (length P + length cur))
             with (length P + length cur + 1)%nat by lia.
           reflexivity.
        -- rewrite Hfin. simpl. rewrite <- app_assoc. reflexivity.
    + cbn [mbind result_bind Py.bind].
      destruct (IH P (cur ++ [b]) y i0
                  (Z.of_nat (length P + length cur)))
        as (st & Hst & Hfin).
      * destruct cur; discriminate.
      * exact Hi0.
      * intros _. rewrite length_app. simpl. lia.
      * intros H. apply Z.ltb_ge in H.
        destruct cur; [congruence | simpl in H; lia].
      * exists st. split; [|exact Hfin].
        rewrite <- Hst. rewrite length_app. simpl.
        rewrite <- (app_assoc cur [b] rest). simpl.
        replace (S (length P + length cur))
          with (length P + (length cur + 1))%nat by lia.
        reflexivity.
Qed.

(** Part 2 of the cleanup sorts each row by its left edge. *)
Lemma repair_sequence_rows (b : IRect) (l : list IRect) :
  repair_sequence (b :: l) =
  Ok (concat (sorted le_x0 <$> rows (b :: l))).
Proof.
  unfold repair_sequence. cbn [lookup list_lookup].
  destruct (repair_loop_rows l [] [b] (y1 b) 0 (-1)) as (st & Hst & Hfin);
    try reflexivity; try discriminate.
  simpl in Hst. simpl. rewrite Nat.sub_0_r. rewrite Hst.
  cbn [mbind result_bind Py.bind]. rewrite Hfin. reflexivity.
Qed.

Lemma StronglySorted_lookup_lt {A : Type} (R : A -> A -> Prop) (l : list A)
    (p q : nat) (a b : A) :
  StronglySorted R l -> l !! p = Some a -> l !! q = Some b -> (p < q)%nat ->
  R a b.
Proof.
  intros HS. revert p q.
  induction HS as [|c l HS IH Hc]; intros p q Hp Hq Hlt; [discriminate|].
  destruct q as [|q]; [lia|]. simpl in Hq.
  destruct p as [|p]; simpl in Hp.
  - injection Hp as ->.
    rewrite Forall_forall in Hc. apply Hc.
    eapply list_elem_of_lookup_2; eauto.
  - apply (IH p q); auto. lia.
Qed.

Lemma sorted_left_first (l : list IRect) : left_first (sorted le_x0 l).
Proof.
  intros p q a b Hp Hq Hlt.
  destruct (Nat.lt_ge_cases p q) as [H|H]; [exact H|].
  exfalso. destruct (decide (p = q)) as [->|Hne].
  - rewrite Hp in Hq. injection Hq as ->. lia.
  - pose proof (StronglySorted_lookup_lt x0_le _ q p b a (sorted_x0 l) Hq Hp)
      as Hle.
    unfold x0_le in Hle. lia.
Qed.

(** ** Cleanup: removing duplicates *)

Lemma dedup_loop_elem_of (idx : list nat) (nblocks kept : list IRect) :
  dedup_loop idx nblocks = Ok kept -> forall r, r ∈ kept -> r ∈ nblocks.
Proof.
  revert nblocks. induction idx as [|i idx IH]; intros nblocks; simpl.
  - intros [= ->]. auto.
  - destruct (index nblocks (Z.of_nat i)) as [bb1|]; [|discriminate].
    destruct (index nblocks (Z.of_nat i - 1)) as [bb0|]; [|discriminate].
    intros H r Hr. specialize (IH _ H r Hr).
    destruct (irect_eqb bb0 bb1); [|exact IH].
    eapply list_elem_of_delete_inv; eauto.
Qed.

Lemma clean_nblocks_inv (nblocks out : list IRect) :
  clean_nblocks nblocks = Ok out ->
  exists kept,
    (((length nblocks < 2)%nat /\ kept = nblocks) \/
     ((2 <= length nblocks)%nat /\
      dedup_loop (rev (seq 0 (length nblocks))) nblocks = Ok kept)) /\
    out = concat (sorted le_x0 <$> rows kept).
Proof.
  unfold clean_nblocks. destruct (length nblocks <? 2)%nat eqn:E.
  - apply Nat.ltb_lt in E. intros [= <-]. exists nblocks. split; [auto|].
    destruct nblocks as [|b [|c l]]; simpl in E; try lia; reflexivity.
  - apply Nat.ltb_ge in E.
    destruct (dedup_loop (rev (seq 0 (length nblocks))) nblocks)
      as [kept|e] eqn:D; cbn [mbind result_bind Py.bind]; [|discriminate].
    intros H. exists kept. split; [auto|].
    destruct kept as [|b l]; [discriminate|].
    rewrite repair_sequence_rows in H. congruence.
Qed.

(** The result of [column_boxes] is empty, or it is what the cleanup makes
    of the merged list. *)
Lemma column_boxes_cleanup (page : Page) (fm hm : Z) (nit : bool)
    (out : list IRect) :
  column_boxes page fm hm nit = Ok out ->
  out = [] \/
  exists vert b0 rest, clean_nblocks (join_columns vert b0 rest) = Ok out.
Proof.
  unfold column_boxes, columns_of.
  destruct (filter_blocks nit (image_rects page)
              (get_text_blocks page (page_clip page fm hm))
              (mkFiltered [] [])) as [st|e]; [|discriminate].
  cbn [mbind result_bind Py.bind].
  destruct (extend_right _ _ _ _ _) as [|b0 rest].
  - intros [= <-]. left. reflexivity.
  - intros H. right. eauto.
Qed.

(** C4 (as the code has it): the final output is the output of the
    cleanup, which is the de-duplicated list cut into rows, each row sorted
    by left edge; a row is a run of consecutive rectangles whose bottoms are
    within 10 units of the bottom of the rectangle that opens the run.  So
    within one row the rectangle with the smaller left edge comes first. *)
Theorem clean_nblocks_rows_sorted (nblocks out : list IRect) :
  clean_nblocks nblocks = Ok out ->
  exists kept,
    (((length nblocks < 2)%nat /\ kept = nblocks) \/
     ((2 <= length nblocks)%nat /\
      dedup_loop (rev (seq 0 (length nblocks))) nblocks = Ok kept)) /\
    concat (rows kept) = kept /\
    Forall is_row (rows kept) /\
    out = concat (sorted le_x0 <$> rows kept) /\
    Forall left_first (sorted le_x0 <$> rows kept).
Proof.
  intros H. destruct (clean_nblocks_inv nblocks out H) as (kept & Hk & Ho).
  exists kept. split; [exact Hk|]. repeat split.
  - destruct kept as [|b l]; [reflexivity|]. apply rows_from_concat.
  - destruct kept as [|b l]; [constructor|].
    apply rows_from_is_row. constructor.
  - exact Ho.
  - apply Forall_fmap, Forall_forall. intros row _. apply sorted_left_first.
Qed.

Lemma elem_of_concat {A : Type} (x : A) (ls : list (list A)) :
  x ∈ concat ls <-> exists l, x ∈ l /\ l ∈ ls.
Proof.
  induction ls as [|l ls IH]; simpl.
  - split; [intros H; inversion H | intros (l & _ & H); inversion H].
  - rewrite elem_of_app, IH. split.
    + intros [H|(l' & H1 & H2)].
      * exists l. split; [exact H | apply list_elem_of_here].
      * exists l'. split; [exact H1 | apply list_elem_of_further, H2].
    + intros (l' & H1 & H2). apply elem_of_cons in H2 as [->|H2]; eauto.
Qed.

Lemma clean_nblocks_elem_of (nblocks out : list IRect) :
  clean_nblocks nblocks = Ok out -> forall r, r ∈ out -> r ∈ nblocks.
Proof.
  intros H r Hr.
  destruct (clean_nblocks_inv nblocks out H) as (kept & Hk & ->).
  assert (Hkept : r ∈ kept).
  { apply elem_of_concat in Hr as (row & Hrow & Hin).
    apply list_elem_of_fmap in Hin as (row0 & -> & Hin).
    rewrite sorted_perm in Hrow.
    assert (Hc : r ∈ concat (rows kept)).
    { apply elem_of_concat. eauto. }
    destruct kept as [|b l]; [inversion Hin|].
    simpl in Hc. rewrite rows_from_concat in Hc. exact Hc. }
  destruct Hk as [[_ ->]|[_ Hd]]; [exact Hkept|].
  eapply dedup_loop_elem_of; eauto.
Qed.

(** C3: a round of the merging loop either appends [bb] (once, or twice
    when [bb] itself fails the test) or replaces one column [nbb] by the
    union [bb | nbb], and then the horizontal spans of [bb] and [nbb]
    overlap; hence every rectangle of the merged list, and of the list
    that the cleanup makes of it, arises from the input rectangles by
    unions of operands with overlapping horizontal spans. *)
Theorem join_columns_overlap (vert : list IRect) (b0 : IRect)
    (rest : list IRect) :
  (forall i bb nblocks bboxes,
     (exists j nbb,
        nblocks !! j = Some nbb /\ h_overlap bb nbb /\
        (join_step vert i bb nblocks bboxes).1 =
          <[j := irect_or bb nbb]> nblocks) \/
     (join_step vert i bb nblocks bboxes).1 = nblocks ++ [bb] \/
     (join_step vert i bb nblocks bboxes).1 = nblocks ++ [bb; bb]) /\
  Forall (merged_from (b0 :: rest)) (join_columns vert b0 rest) /\
  (forall out,
     clean_nblocks (join_columns vert b0 rest) = Ok out ->
     Forall (merged_from (b0 :: rest)) out).
Proof.
  assert (HF : Forall (merged_from (b0 :: rest)) (join_columns vert b0 rest)).
  { unfold join_columns. apply join_loop_merged.
    - intros bb Hbb. apply list_elem_of_further, Hbb.
    - constructor; [|constructor].
      apply merged_input, list_elem_of_here. }
  split; [|split; [exact HF|]].
  - intros i bb nblocks bboxes.
    destruct (join_step_cases vert i bb nblocks bboxes)
      as [(j & nbb & Hj & Ho & _ & _ & E)|[E|[_ E]]]; eauto 10.
  - intros out Hout. rewrite Forall_forall in HF. apply Forall_forall.
    intros r Hr. apply HF. eapply clean_nblocks_elem_of; eauto.
Qed.

(** ** Candidate filtering *)

Lemma bind_Ok {A B : Type} (a : A) (k : A -> result B) :
  (Ok a ≫= k) = k a.
Proof. reflexivity. Qed.

Lemma bind_Raise {A B : Type} (e : exn) (k : A -> result B) :
  (Raise e ≫= k) = Raise e.
Proof. reflexivity. Qed.

Lemma filter_blocks_app (nit : bool) (img : list IRect)
    (pre post : list Block) (st : filtered) :
  filter_blocks nit img (pre ++ post) st =
  filter_blocks nit img pre st ≫= filter_blocks nit img post.
Proof.
  revert st. induction pre as [|b pre IH]; intros st; simpl; [reflexivity|].
  destruct (filter_block nit img st b) as [st'|e];
    [rewrite !bind_Ok; apply IH | reflexivity].
Qed.

Lemma build_srect_exn (lines : list Line) (srect : IRect) (e : exn) :
  build_srect lines srect = Raise e -> e = KeyError.
Proof.
  revert srect. induction lines as [|line rest IH]; intros srect; simpl;
    [discriminate|].
  destruct (l_spans line); [apply IH | congruence].
Qed.

Lemma filter_block_exn (nit : bool) (img : list IRect) (st : filtered)
    (b : Block) (e : exn) :
  filter_block nit img st b = Raise e -> e = KeyError.
Proof.
  unfold filter_block.
  destruct (nit && in_bbox (b_bbox b) img); [discriminate|].
  destruct (b_lines b) as [[|line0 ls]|]; [discriminate| |congruence].
  destruct (negb (bool_decide (l_dir line0 = (1, 0)))); [discriminate|].
  destruct (build_srect (line0 :: ls) EMPTY_IRECT) as [srect|e'] eqn:E.
  - rewrite bind_Ok. destruct (negb (is_empty srect)); discriminate.
  - rewrite bind_Raise. intros [= <-]. eapply build_srect_exn; eauto.
Qed.

Lemma filter_blocks_exn (nit : bool) (img : list IRect) (blocks : list Block)
    (st : filtered) (e : exn) :
  filter_blocks nit img blocks st = Raise e -> e = KeyError.
Proof.
  revert st. induction blocks as [|b rest IH]; intros st; simpl;
    [discriminate|].
  destruct (filter_block nit img st b) as [st'|e'] eqn:E.
  - rewrite bind_Ok. apply IH.
  - rewrite bind_Raise. intros [= <-]. eapply filter_block_exn; eauto.
Qed.

(** A line without ["spans"] makes the line loop raise [KeyError]. *)
Lemma build_srect_missing_spans (lines : list Line) (srect : IRect)
    (line : Line) :
  line ∈ lines -> l_spans line = None ->
  build_srect lines srect = Raise KeyError.
Proof.
  revert srect. induction lines as [|l rest IH]; intros srect Hin Hs;
    [inversion Hin|].
  simpl. apply elem_of_cons in Hin as [<-|Hin].
  - rewrite Hs. reflexivity.
  - destruct (l_spans l); [apply IH; auto | reflexivity].
Qed.

Lemma build_srect_foldl (lines : list Line) (srect : IRect) :
  Forall (fun l => is_Some (l_spans l)) lines ->
  build_srect lines srect =
  Ok (foldl irect_or srect
        (l_bbox <$> filter (fun l => qualifies l = true) lines)).
Proof.
  intros HF. revert srect.
  induction HF as [|line rest [spans Hs] HF IH]; intros srect;
    [reflexivity|].
  cbn [build_srect]. rewrite Hs, IH. f_equal. rewrite filter_cons.
  assert (Hq : qualifies line = (1 <? length (line_text spans))%nat)
    by (unfold qualifies; rewrite Hs; reflexivity).
  destruct (decide (qualifies line = true)) as [Ht|Hf]; rewrite Hq in *.
  - rewrite Ht. reflexivity.
  - destruct (1 <? length (line_text spans))%nat;
      [congruence | reflexivity].
Qed.






Lemma sorted_nil_inv {A : Type} (le : A -> A -> bool) (l : list A) :
  sorted le l = [] -> l = [].
Proof.
  intros H. apply (f_equal length) in H. rewrite length_sorted in H.
  destruct l; [reflexivity | discriminate].
Qed.

Lemma extend_right_length (vert bboxes : list IRect) (width : Z)
    (v img : list IRect) :
  length (extend_right vert bboxes width v img) = length bboxes.
Proof.
  unfold extend_right. rewrite not_none_Some.
  generalize (seq 0 (length bboxes)). intros idx.
  revert bboxes. induction idx as [|i idx IH]; intros cur; simpl;
    [reflexivity|].
  rewrite IH.
  destruct (extend_at_cases vert width v img cur i)
    as [->|(bb & _ & _ & _ & _ & ->)]; [reflexivity|].
  apply length_insert.
Qed.

Lemma extend_right_nil (vert : list IRect) (width : Z) (v img : list IRect) :
  extend_right vert [] width v img = [].
Proof. reflexivity. Qed.

Lemma columns_of_no_candidates (width : Z) (img : list IRect)
    (blocks : list Block) (nit : bool) (st : filtered) :
  filter_blocks nit img blocks (mkFiltered [] []) = Ok st ->
  f_bboxes st = [] ->
  columns_of width img blocks nit = Ok [].
Proof.
  intros Hf Hb. unfold columns_of. rewrite Hf, bind_Ok, Hb. reflexivity.
Qed.

Lemma filter_block_empty_lines (nit : bool) (img : list IRect)
    (st : filtered) (b : Block) :
  b_lines b = Some [] -> filter_block nit img st b = Ok st.
Proof.
  intros H. unfold filter_block. rewrite H.
  destruct (nit && in_bbox (b_bbox b) img); reflexivity.
Qed.



(** C8: when the block list is empty, and more generally when filtering
    completes and no candidate rectangle is left after filtering and right
    extension, [column_boxes] returns the empty list. *)
Theorem column_boxes_nothing_found (page : Page) (fm hm : Z) (nit : bool) :
  (get_text_blocks page (page_clip page fm hm) = [] ->
   column_boxes page fm hm nit = Ok []) /\
  (forall st,
     filter_blocks nit (image_rects page)
       (get_text_blocks page (page_clip page fm hm)) (mkFiltered [] []) =
       Ok st ->
     f_bboxes st = [] \/
     extend_right (f_vert st) (sorted le_top_left (f_bboxes st))
       (rect_width (rect page)) (f_vert st) (image_rects page) = [] ->
     column_boxes page fm hm nit = Ok []).
Proof.
  split.
  - intros Hb. unfold column_boxes. rewrite Hb. reflexivity.
  - intros st Hf Hnone. unfold column_boxes.
    eapply columns_of_no_candidates; [exact Hf|].
    destruct Hnone as [H|H]; [exact H|].
    apply (f_equal length) in H.
    rewrite extend_right_length, length_sorted in H.
    destruct (f_bboxes st); [reflexivity | discriminate].
Qed.

(** C9: a block whose list of lines is empty leaves both lists of the
    block loop as they are and raises nothing; the loop, and the whole
    computation, go on as if the block were not there. *)
Theorem empty_lines_block_skipped (nit : bool) (img : list IRect)
    (b : Block) :
  b_lines b = Some [] ->
  (forall st, filter_block nit img st b = Ok st) /\
  (forall pre post st,
     filter_blocks nit img (pre ++ b :: post) st =
     filter_blocks nit img (pre ++ post) st) /\
  (forall width pre post,
     columns_of width img (pre ++ b :: post) nit =
     columns_of width img (pre ++ post) nit).
Proof.
  intros Hl.
  assert (Hskip : forall pre post st,
            filter_blocks nit img (pre ++ b :: post) st =
            filter_blocks nit img (pre ++ post) st).
  { intros pre post st. rewrite !filter_blocks_app.
    destruct (filter_blocks nit img pre st) as [st'|e]; [|reflexivity].
    rewrite !bind_Ok. cbn [filter_blocks].
    rewrite (filter_block_empty_lines nit img st' b Hl). reflexivity. }
  split; [intros st; apply filter_block_empty_lines, Hl|].
  split; [exact Hskip|].
  intros width pre post. unfold columns_of. rewrite Hskip. reflexivity.
Qed.

(** C10 (as the code has it): a block that the image test lets through and
    that has no ["lines"] key, or a horizontal block that the image test
    lets through and that has a line without ["spans"] key, makes
    [column_boxes] raise [KeyError]. *)
Theorem missing_key_raises (page : Page) (fm hm : Z) (nit : bool)
    (pre post : list Block) (b : Block) :
  get_text_blocks page (page_clip page fm hm) = pre ++ b :: post ->
  nit && in_bbox (b_bbox b) (image_rects page) = false ->
  (b_lines b = None \/
   exists line0 rest line,
     b_lines b = Some (line0 :: rest) /\ l_dir line0 = (1, 0) /\
     line ∈ line0 :: rest /\ l_spans line = None) ->
  column_boxes page fm hm nit = Raise KeyError.
Proof.
  intros Hb Hi Hmiss. unfold column_boxes, columns_of. rewrite Hb.
  rewrite filter_blocks_app.
  destruct (filter_blocks nit (image_rects page) pre (mkFiltered [] []))
    as [st|e] eqn:E.
  - rewrite bind_Ok. cbn [filter_blocks].
    assert (Hraise : filter_block nit (image_rects page) st b =
                     Raise KeyError).
    { unfold filter_block. rewrite Hi.
      destruct Hmiss as [->|(line0 & rest & line & -> & Hd & Hin & Hs)];
        [reflexivity|].
      rewrite bool_decide_eq_true_2 by exact Hd. cbn [negb].
      rewrite (build_srect_missing_spans _ _ line Hin Hs). reflexivity. }
    rewrite Hraise. reflexivity.
  - apply filter_blocks_exn in E as ->. reflexivity.
Qed.

(** ** Obstacles *)

Lemma extend_at_clear (vert : list IRect) (width : Z) (v img : list IRect)
    (orig cur : list IRect) (i : nat) :
  Forall2 (kept_or_clear width (v ++ img)) orig cur ->
  Forall2 (kept_or_clear width (v ++ img)) orig
    (extend_at vert width v img cur i).
Proof.
  intros HF.
  destruct (extend_at_cases vert width v img cur i)
    as [->|(bb & Hi & _ & Hclear & _ & ->)]; [exact HF|].
  apply Forall2_same_length_lookup. split.
  - rewrite length_insert. eapply Forall2_length; eauto.
  - intros k a r Ha Hr.
    destruct (decide (i = k)) as [->|Hne].
    + rewrite list_lookup_insert_eq in Hr by (eapply lookup_lt_Some; eauto).
      injection Hr as <-. right.
      destruct (Forall2_lookup_lr _ _ _ _ _ _ HF Ha Hi) as [->|[-> _]];
        [split; [reflexivity | exact Hclear]|].
      rewrite set_x1_set_x1 in *. split; [reflexivity | exact Hclear].
    + rewrite list_lookup_insert_ne in Hr by exact Hne.
      eapply Forall2_lookup_lr; eauto.
Qed.

Lemma extend_right_clear (vert : list IRect) (bboxes : list IRect)
    (width : Z) (v img : list IRect) :
  Forall2 (kept_or_clear width (v ++ img)) bboxes
    (extend_right vert bboxes width v img).
Proof.
  unfold extend_right. rewrite not_none_Some.
  assert (H0 : Forall2 (kept_or_clear width (v ++ img)) bboxes bboxes).
  { apply Forall2_same_length_lookup. split; [reflexivity|].
    intros k a r Ha Hr. left. congruence. }
  revert H0. generalize bboxes at 2 4 as cur.
  generalize (seq 0 (length bboxes)) as idx.
  induction idx as [|i idx IH]; intros cur HF; simpl; [exact HF|].
  apply IH, extend_at_clear, HF.
Qed.

Lemma join_step_snd (vert : list IRect) (i : nat) (bb : IRect)
    (nblocks : list IRect) (bboxes : list (option IRect)) :
  (join_step vert i bb nblocks bboxes).2 = <[i := None]> bboxes.
Proof.
  unfold join_step.
  destruct (scan_nblocks vert bb nblocks 0 nblocks) as [[j temp]|];
    reflexivity.
Qed.

(** One round of the merging loop adds input rectangles, or a union that
    meets no vertical-text rectangle. *)
Lemma join_step_unions (vert inputs : list IRect) (i : nat) (bb : IRect)
    (nblocks : list IRect) (bboxes : list (option IRect)) :
  bboxes <> [] -> bb ∈ inputs ->
  Forall (merged_from inputs) nblocks ->
  Forall (input_or_union vert inputs) nblocks ->
  Forall (input_or_union vert inputs) (join_step vert i bb nblocks bboxes).1.
Proof.
  intros Hne Hbb HM HF.
  destruct (join_step_cases vert i bb nblocks bboxes)
    as [(j & nbb & Hj & Ho & _ & Hc & ->)|[->|[_ ->]]].
  - apply Forall_insert; [exact HF|]. right. exists bb, nbb.
    split; [exact Hbb|]. split; [eapply Forall_lookup_1; eauto|].
    split; [exact Ho|]. split; [reflexivity|].
    eapply can_extend_no_vert; eauto.
  - apply Forall_app; split; [exact HF|].
    constructor; [left; exact Hbb | constructor].
  - apply Forall_app; split; [exact HF|].
    constructor; [left; exact Hbb|].
    constructor; [left; exact Hbb | constructor].
Qed.

Lemma join_loop_unions (vert inputs : list IRect) (todo : list IRect)
    (i : nat) (nblocks : list IRect) (bboxes : list (option IRect)) :
  (length todo <= length bboxes)%nat ->
  (forall bb, bb ∈ todo -> bb ∈ inputs) ->
  Forall (merged_from inputs) nblocks ->
  Forall (input_or_union vert inputs) nblocks ->
  Forall (input_or_union vert inputs) (join_loop vert i todo nblocks bboxes).
Proof.
  revert i nblocks bboxes.
  induction todo as [|bb rest IH]; intros i nblocks bboxes Hlen Hin HM HF;
    simpl; [exact HF|].
  pose proof (join_step_unions vert inputs i bb nblocks bboxes) as Hs.
  pose proof (join_step_merged vert inputs i bb nblocks bboxes) as Hm.
  pose proof (join_step_snd vert i bb nblocks bboxes) as H2.
  destruct (join_step vert i bb nblocks bboxes) as [nb' bx'] eqn:E.
  simpl in Hs, Hm, H2, Hlen.
  assert (Hbb : bb ∈ inputs) by apply Hin, list_elem_of_here.
  apply IH.
  - rewrite H2, length_insert. lia.
  - intros c Hc. apply Hin, list_elem_of_further, Hc.
  - apply Hm; [exact Hbb | exact HM].
  - apply Hs; [|exact Hbb | exact HM | exact HF].
    destruct bboxes; [simpl in Hlen; lia | discriminate].
Qed.

(** C2 (as the code has it): when [column_boxes] returns, every rectangle
    [r] of the result either stands in the list after right extension, and
    then it is a candidate rectangle as filtering produced it or a candidate
    widened to the page width that meets no vertical-text and no image
    rectangle; or it does not stand in that list, and then it is a union
    [bb | nbb] made by a merging round, which meets no vertical-text
    rectangle. *)
Theorem output_obstacles (page : Page) (fm hm : Z) (nit : bool)
    (st : filtered) (out : list IRect) :
  filter_blocks nit (image_rects page)
    (get_text_blocks page (page_clip page fm hm)) (mkFiltered [] []) = Ok st ->
  column_boxes page fm hm nit = Ok out ->
  let ext :=
    extend_right (f_vert st) (sorted le_top_left (f_bboxes st))
      (rect_width (rect page)) (f_vert st) (image_rects page) in
  forall r, r ∈ out ->
    (r ∈ ext /\
     (r ∈ f_bboxes st \/
      exists c, c ∈ f_bboxes st /\ r = set_x1 c (rect_width (rect page)) /\
        intersects_bboxes r (f_vert st ++ image_rects page) = false)) \/
    ((r ∉ ext) /\ clear_union (f_vert st) ext r).
Proof.
  intros Hf Hout ext r Hr.
  unfold column_boxes, columns_of in Hout. rewrite Hf, bind_Ok in Hout.
  set (width := rect_width (rect page)) in *.
  set (cands := sorted le_top_left (f_bboxes st)) in *.
  pose proof (extend_right_clear (f_vert st) cands width (f_vert st)
                (image_rects page)) as Hext.
  fold ext in Hout, Hext.
  destruct (decide (r ∈ ext)) as [Hin|Hnin].
  - left. split; [exact Hin|].
    apply list_elem_of_lookup_1 in Hin as [k Hk].
    destruct (Forall2_lookup_r _ _ _ _ _ Hext Hk) as (c & Hc & Hkc).
    assert (Hcand : c ∈ f_bboxes st).
    { apply list_elem_of_lookup_2 in Hc. unfold cands in Hc.
      rewrite sorted_perm in Hc. exact Hc. }
    destruct Hkc as [->|[-> Hclear]]; [left; exact Hcand|].
    right. exists c. auto.
  - right. split; [exact Hnin|].
    destruct ext as [|b0 rest] eqn:E.
    { injection Hout as <-. inversion Hr. }
    apply (clean_nblocks_elem_of _ _ Hout) in Hr.
    assert (HF : Forall (input_or_union (f_vert st) (b0 :: rest))
                   (join_columns (f_vert st) b0 rest)).
    { unfold join_columns. apply join_loop_unions.
      - rewrite length_fmap. lia.
      - intros bb Hbb. apply list_elem_of_further, Hbb.
      - constructor; [apply merged_input, list_elem_of_here | constructor].
      - constructor; [left; apply list_elem_of_here | constructor]. }
    rewrite Forall_forall in HF.
    destruct (HF r Hr) as [Hin|Hu]; [contradiction | exact Hu].
Qed.

(** ** Concrete pages: witnesses and counterexamples *)

(** C1, counterexample: the candidate meets the vertical-text rectangle, so
    every entry passes the reading with the escape, and the test
    rejects. *)
Lemma escape_hatch_refuted :
  ~ (can_extend [mkIRect 5 5 20 20] (mkIRect 0 0 10 10) (mkIRect 0 0 8 10)
       [Some (mkIRect 100 100 110 110)] = true <->
     forall b, b ∈ [Some (mkIRect 100 100 110 110)] ->
       escape_hatch_entry [mkIRect 5 5 20 20] (mkIRect 0 0 10 10)
         (mkIRect 0 0 8 10) b).
Proof.
  intros [_ H].
  assert (Hfalse : can_extend [mkIRect 5 5 20 20] (mkIRect 0 0 10 10)
            (mkIRect 0 0 8 10) [Some (mkIRect 100 100 110 110)] = false)
    by reflexivity.
  rewrite H in Hfalse; [discriminate|].
  intros b _. right; right. reflexivity.
Qed.

Lemma can_extend_compatible_witness :
  intersects_bboxes (mkIRect 0 0 10 10) [mkIRect 5 5 20 20] = true /\
  [Some (mkIRect 100 100 110 110)] <> [] /\
  can_extend [mkIRect 5 5 20 20] (mkIRect 0 0 10 10) (mkIRect 0 0 8 10)
    [Some (mkIRect 100 100 110 110)] = false.
Proof.
  split; [reflexivity|]. split; [discriminate|].
  apply (proj2 (can_extend_compatible [mkIRect 5 5 20 20] (mkIRect 0 0 10 10)
                  (mkIRect 0 0 8 10) [Some (mkIRect 100 100 110 110)]));
    [reflexivity | discriminate].
Defined.

(** C2, counterexample: a candidate that lies partly over an image is
    returned as it is; so is one that lies partly over a vertical-text
    block; and the union of two blocks covers the image between them. *)
Lemma output_meets_obstacles :
  ~ obstacle_respect page_over_image 0 0 /\
  ~ obstacle_respect page_over_vertical 0 0 /\
  ~ obstacle_respect page_image_between 0 0.
Proof.
  split; [|split].
  - intros H.
    destruct (H (mkFiltered [mkIRect 50 50 150 150] [])
                [mkIRect 50 50 150 150] eq_refl eq_refl
                (mkIRect 50 50 150 150) (list_elem_of_here _ _)) as [Hi _].
    discriminate Hi.
  - intros H.
    destruct (H (mkFiltered [mkIRect 10 10 60 60] [mkIRect 0 0 50 50])
                [mkIRect 10 10 60 60] eq_refl eq_refl
                (mkIRect 10 10 60 60) (list_elem_of_here _ _)) as [_ Hv].
    discriminate Hv.
  - intros H.
    destruct (H (mkFiltered [mkIRect 0 0 100 10; mkIRect 0 90 100 100] [])
                [mkIRect 0 0 100 100] eq_refl eq_refl
                (mkIRect 0 0 100 100) (list_elem_of_here _ _)) as [Hi _].
    discriminate Hi.
Qed.

Lemma output_obstacles_witness :
  filter_blocks true (image_rects page_image_between)
    (get_text_blocks page_image_between
       (page_clip page_image_between 0 0)) (mkFiltered [] []) =
    Ok (mkFiltered [mkIRect 0 0 100 10; mkIRect 0 90 100 100] []) /\
  column_boxes page_image_between 0 0 true = Ok [mkIRect 0 0 100 100] /\
  (mkIRect 0 0 100 100 ∉ [mkIRect 0 0 100 10; mkIRect 0 90 100 100]) /\
  clear_union [] [mkIRect 0 0 100 10; mkIRect 0 90 100 100]
    (mkIRect 0 0 100 100).
Proof.
  split; [reflexivity|]. split; [reflexivity|].
  destruct (output_obstacles page_image_between 0 0 true
              (mkFiltered [mkIRect 0 0 100 10; mkIRect 0 90 100 100] [])
              [mkIRect 0 0 100 100] eq_refl eq_refl
              (mkIRect 0 0 100 100) (list_elem_of_here _ _))
    as [[Hin _]|H]; [|exact H].
  exfalso. simpl in Hin.
  apply elem_of_cons in Hin as [Heq|Hin]; [discriminate Heq|].
  apply elem_of_cons in Hin as [Heq|Hin]; [discriminate Heq|].
  inversion Hin.
Defined.

Lemma join_columns_overlap_witness :
  clean_nblocks
    (join_columns [] (mkIRect 0 0 100 10)
       [mkIRect 0 90 100 100; mkIRect 150 0 300 100]) =
    Ok [mkIRect 0 0 100 100; mkIRect 150 0 300 100] /\
  Forall
    (merged_from
       [mkIRect 0 0 100 10; mkIRect 0 90 100 100; mkIRect 150 0 300 100])
    [mkIRect 0 0 100 100; mkIRect 150 0 300 100].
Proof.
  split; [reflexivity|].
  apply (proj2 (proj2 (join_columns_overlap [] (mkIRect 0 0 100 10)
                         [mkIRect 0 90 100 100; mkIRect 150 0 300 100]))).
  reflexivity.
Defined.

(** C4, counterexample: the first and the third rectangle of the result
    have the same bottom, and the third has the smaller left edge. *)
Lemma bottoms_not_ordered :
  column_boxes page_three_columns 0 0 true =
    Ok [mkIRect 50 0 100 100; mkIRect 0 10 5 300; mkIRect 10 20 40 100] /\
  ~ bottoms_ordered
      [mkIRect 50 0 100 100; mkIRect 0 10 5 300; mkIRect 10 20 40 100].
Proof.
  split; [reflexivity|]. intros H.
  specialize (H 2%nat 0%nat (mkIRect 10 20 40 100) (mkIRect 50 0 100 100)
                eq_refl eq_refl).
  simpl in H. lia.
Qed.

Lemma clean_nblocks_rows_sorted_witness :
  clean_nblocks
    [mkIRect 50 0 100 100; mkIRect 10 20 40 105; mkIRect 0 10 5 300] =
    Ok [mkIRect 10 20 40 105; mkIRect 50 0 100 100; mkIRect 0 10 5 300] /\
  exists kept : list IRect,
    (((length [mkIRect 50 0 100 100; mkIRect 10 20 40 105;
               mkIRect 0 10 5 300] < 2)%nat /\
      kept = [mkIRect 50 0 100 100; mkIRect 10 20 40 105;
              mkIRect 0 10 5 300]) \/
     ((2 <= length [mkIRect 50 0 100 100; mkIRect 10 20 40 105;
                    mkIRect 0 10 5 300])%nat /\
      dedup_loop (rev (seq 0 (length [mkIRect 50 0 100 100;
                                      mkIRect 10 20 40 105;
                                      mkIRect 0 10 5 300])))
        [mkIRect 50 0 100 100; mkIRect 10 20 40 105; mkIRect 0 10 5 300] =
        Ok kept)) /\
    concat (rows kept) = kept /\
    Forall is_row (rows kept) /\
    [mkIRect 10 20 40 105; mkIRect 50 0 100 100; mkIRect 0 10 5 300] =
      concat (sorted le_x0 <$> rows kept) /\
    Forall left_first (sorted le_x0 <$> rows kept).
Proof.
  split; [reflexivity|].
  apply (clean_nblocks_rows_sorted
           [mkIRect 50 0 100 100; mkIRect 10 20 40 105; mkIRect 0 10 5 300]
           [mkIRect 10 20 40 105; mkIRect 50 0 100 100; mkIRect 0 10 5 300]).
  reflexivity.
Defined.


Lemma column_boxes_nothing_found_witness :
  get_text_blocks (page_of 200 400 [mkIRect 0 0 100 100] [])
    (page_clip (page_of 200 400 [mkIRect 0 0 100 100] []) 0 0) = [] /\
  column_boxes (page_of 200 400 [mkIRect 0 0 100 100] []) 0 0 true = Ok [].
Proof.
  split; [reflexivity|].
  apply (proj1 (column_boxes_nothing_found
                  (page_of 200 400 [mkIRect 0 0 100 100] []) 0 0 true)).
  reflexivity.
Defined.

Lemma empty_lines_block_skipped_witness :
  b_lines (mkBlock (mkIRect 0 0 30 30) (Some [])) = Some [] /\
  columns_of 100 []
    ([text_block (mkIRect 0 0 100 10)] ++
     mkBlock (mkIRect 0 0 30 30) (Some []) ::
     [text_block (mkIRect 0 90 100 100)]) true =
  columns_of 100 []
    ([text_block (mkIRect 0 0 100 10)] ++
     [text_block (mkIRect 0 90 100 100)]) true.
Proof.
  split; [reflexivity|].
  apply (empty_lines_block_skipped true []
           (mkBlock (mkIRect 0 0 30 30) (Some [])) eq_refl).
Defined.

(** C10, counterexample: a block without ["lines"] that lies inside an
    image is skipped by the image test, and the lines of a vertical block
    are never asked for their spans; both calls return. *)
Lemma missing_key_not_raised :
  ~ raises_on_missing_key page_no_lines_in_image 0 0 true /\
  ~ raises_on_missing_key page_vertical_no_spans 0 0 true.
Proof.
  split.
  - intros H.
    assert (Hret : column_boxes page_no_lines_in_image 0 0 true = Ok [])
      by reflexivity.
    rewrite H in Hret; [discriminate|].
    eexists. split; [apply list_elem_of_here|]. left. reflexivity.
  - intros H.
    assert (Hret : column_boxes page_vertical_no_spans 0 0 true = Ok [])
      by reflexivity.
    rewrite H in Hret; [discriminate|].
    eexists. split; [apply list_elem_of_here|]. right.
    eexists _, (mkLine (mkIRect 10 50 20 90) (0, 1) None).
    split; [reflexivity|]. split; [|reflexivity].
    apply list_elem_of_further, list_elem_of_here.
Qed.

Lemma missing_key_raises_witness :
  get_text_blocks
    (page_of 200 400 []
       [text_block (mkIRect 0 0 100 10); mkBlock (mkIRect 10 10 20 20) None])
    (page_clip
       (page_of 200 400 []
          [text_block (mkIRect 0 0 100 10);
           mkBlock (mkIRect 10 10 20 20) None]) 0 0) =
    [text_block (mkIRect 0 0 100 10)] ++
    mkBlock (mkIRect 10 10 20 20) None :: [] /\
  column_boxes
    (page_of 200 400 []
       [text_block (mkIRect 0 0 100 10); mkBlock (mkIRect 10 10 20 20) None])
    0 0 true = Raise KeyError.
Proof.
  split; [reflexivity|].
  apply (missing_key_raises _ 0 0 true
           [text_block (mkIRect 0 0 100 10)] []
           (mkBlock (mkIRect 10 10 20 20) None)).
  - reflexivity.
  - reflexivity.
  - left. reflexivity.
Defined.

Lemma index_nat {A : Type} (l : list A) (i : nat) :
  index l (Z.of_nat i) = l !! i.
Proof.
  unfold index. destruct (Z.of_nat i <? 0) eqn:E; [apply Z.ltb_lt in E; lia|].
  rewrite Nat2Z.id. reflexivity.
Qed.

Lemma index_pred {A : Type} (l : list A) (i : nat) :
  (0 < i)%nat -> index l (Z.of_nat i - 1) = l !! (i - 1)%nat.
Proof.
  intros H. replace (Z.of_nat i - 1) with (Z.of_nat (i - 1)) by lia.
  apply index_nat.
Qed.

Lemma index_last {A : Type} (l : list A) : index l (-1) = last l.
Proof.
  unfold index. cbn [Z.ltb Z.compare]. rewrite last_lookup.
  destruct l as [|a l]; [reflexivity|].
  destruct (Z.of_nat (length (a :: l)) + -1 <? 0) eqn:E;
    [apply Z.ltb_lt in E; simpl in E; lia|].
  f_equal. simpl. lia.
Qed.

Lemma adjacent_dedup_from_snoc (a : IRect) (l : list IRect) (q p : IRect) :
  adjacent_dedup_from a ((l ++ [q]) ++ [p]) =
  adjacent_dedup_from a (l ++ [q]) ++ (if irect_eqb q p then [] else [p]).
Proof.
  revert a. induction l as [|c l IH]; intros a; simpl.
  - destruct (irect_eqb a q), (irect_eqb q p); reflexivity.
  - rewrite IH. destruct (irect_eqb a c); reflexivity.
Qed.

Lemma adjacent_dedup_snoc (l : list IRect) (q p : IRect) :
  adjacent_dedup ((l ++ [q]) ++ [p]) =
  adjacent_dedup (l ++ [q]) ++ (if irect_eqb q p then [] else [p]).
Proof.
  destruct l as [|a l]; simpl.
  - destruct (irect_eqb q p); reflexivity.
  - rewrite adjacent_dedup_from_snoc. reflexivity.
Qed.

(** The duplicate loop from index [length pre] down, when the entries
    behind [p] have been treated and [D] is what is left of them. *)
Lemma dedup_loop_suffix (pre : list IRect) (p : IRect) (D : list IRect) :
  dedup_loop (rev (seq 0 (length (pre ++ [p])))) ((pre ++ [p]) ++ D) =
  Ok (drop_wrapped (adjacent_dedup (pre ++ [p]) ++ D)).
Proof.
  revert p D. induction pre as [|q pre IH] using rev_ind; intros p D.
  - cbn [app length seq rev dedup_loop].
    change (Z.of_nat 0 - 1) with (-1). rewrite index_last.
    change (index (p :: D) (Z.of_nat 0)) with (Some p).
    unfold drop_wrapped. cbn [adjacent_dedup adjacent_dedup_from app].
    destruct (last (p :: D)) as [z|] eqn:E;
      [|apply last_None in E; discriminate E].
    destruct (irect_eqb z p); reflexivity.
  - rewrite (length_app (pre ++ [q]) [p]). cbn [length].
    rewrite Nat.add_1_r, seq_S, rev_app_distr. cbn [rev app dedup_loop].
    cbn [Nat.add]. rewrite index_nat, index_pred
      by (rewrite length_app; simpl; lia).
    rewrite <- (app_assoc (pre ++ [q]) [p] D). cbn [app].
    rewrite (list_lookup_middle (pre ++ [q]) D p) by reflexivity.
    assert (Hq : ((pre ++ [q]) ++ p :: D) !! (length (pre ++ [q]) - 1)%nat =
                 Some q).
    { rewrite <- app_assoc. apply list_lookup_middle.
      rewrite length_app; simpl; lia. }
    rewrite Hq, adjacent_dedup_snoc.
    rewrite <- (app_assoc (adjacent_dedup (pre ++ [q]))).
    destruct (irect_eqb q p).
    + rewrite delete_middle. apply IH.
    + apply IH.
Qed.

(** The duplicate loop as a whole: adjacent duplicates go, and then the
    round at [i = 0] compares the first entry with the last one. *)
Lemma dedup_loop_adjacent (l : list IRect) :
  dedup_loop (rev (seq 0 (length l))) l =
  Ok (drop_wrapped (adjacent_dedup l)).
Proof.
  destruct l as [|p pre _] using rev_ind; [reflexivity|].
  pose proof (dedup_loop_suffix pre p []) as H.
  rewrite !app_nil_r in H. exact H.
Qed.

(** C6: the duplicate loop removes the adjacent duplicates and then, at
    [i = 0], compares the first entry with [nblocks[-1]], the last entry.
    On a list [A; B; A] the first [A] is deleted although nothing stands
    before it; on [A; A] both copies are deleted and reading [nblocks[0]]
    then raises [IndexError], as does [column_boxes] on a page where two
    equal text blocks lie over a vertical-text block. *)
Theorem dedup_wraps_around :
  (forall l,
     dedup_loop (rev (seq 0 (length l))) l =
     Ok (drop_wrapped (adjacent_dedup l))) /\
  dedup_loop (rev (seq 0 3))
    [mkIRect 0 0 1 1; mkIRect 5 50 6 60; mkIRect 0 0 1 1] =
    Ok [mkIRect 5 50 6 60; mkIRect 0 0 1 1] /\
  dedup_loop (rev (seq 0 2)) [mkIRect 0 0 1 1; mkIRect 0 0 1 1] = Ok [] /\
  clean_nblocks [mkIRect 0 0 1 1; mkIRect 0 0 1 1] = Raise IndexError /\
  column_boxes page_twins_over_vertical 0 0 true = Raise IndexError.
Proof.
  split; [exact dedup_loop_adjacent|]. repeat split; reflexivity.
Qed.

(** ** Right extension, entry by entry *)

Lemma extend_at_unfold (vert : list IRect) (width : Z) (v img : list IRect)
    (cur : list IRect) (i : nat) :
  extend_at vert width v img cur i =
  match cur !! i with
  | Some bb =>
      if extends_at vert width v img cur bb
      then <[i := set_x1 bb width]> cur else cur
  | None => cur
  end.
Proof.
  unfold extend_at, extends_at. destruct (cur !! i) as [bb|]; [|reflexivity].
  destruct (in_bbox bb img); [reflexivity|].
  destruct (intersects_bboxes (set_x1 bb width) (v ++ img)); [reflexivity|].
  destruct (can_extend vert (set_x1 bb width) bb (Some <$> cur)); reflexivity.
Qed.

Lemma extend_at_length (vert : list IRect) (width : Z) (v img : list IRect)
    (cur : list IRect) (i : nat) :
  length (extend_at vert width v img cur i) = length cur.
Proof.
  rewrite extend_at_unfold. destruct (cur !! i) as [bb|]; [|reflexivity].
  destruct (extends_at vert width v img cur bb); [|reflexivity].
  apply length_insert.
Qed.

Lemma extend_at_lookup_ne (vert : list IRect) (width : Z)
    (v img : list IRect) (cur : list IRect) (i j : nat) :
  i <> j -> extend_at vert width v img cur i !! j = cur !! j.
Proof.
  intros Hne. rewrite extend_at_unfold.
  destruct (cur !! i) as [bb|]; [|reflexivity].
  destruct (extends_at vert width v img cur bb); [|reflexivity].
  apply list_lookup_insert_ne, Hne.
Qed.

Lemma extend_at_lookup_eq (vert : list IRect) (width : Z)
    (v img : list IRect) (cur : list IRect) (i : nat) (bb : IRect) :
  cur !! i = Some bb ->
  extend_at vert width v img cur i !! i =
  Some (if extends_at vert width v img cur bb then set_x1 bb width else bb).
Proof.
  intros Hi. rewrite extend_at_unfold, Hi.
  destruct (extends_at vert width v img cur bb); [|exact Hi].
  apply list_lookup_insert_eq. eapply lookup_lt_Some; eauto.
Qed.

Lemma extend_loop_length (vert : list IRect) (width : Z) (v img : list IRect)
    (idx : list nat) (cur : list IRect) :
  length (foldl (extend_at vert width v img) cur idx) = length cur.
Proof.
  revert cur. induction idx as [|i idx IH]; intros cur; simpl; [reflexivity|].
  rewrite IH. apply extend_at_length.
Qed.

Lemma extend_loop_lookup_notin (vert : list IRect) (width : Z)
    (v img : list IRect) (idx : list nat) (cur : list IRect) (j : nat) :
  j ∉ idx ->
  foldl (extend_at vert width v img) cur idx !! j = cur !! j.
Proof.
  revert cur. induction idx as [|i idx IH]; intros cur Hj; simpl;
    [reflexivity|].
  rewrite IH by (intros H; apply Hj, list_elem_of_further, H).
  apply extend_at_lookup_ne. intros ->. apply Hj, list_elem_of_here.
Qed.

(** The loop of [extend_right] goes from left to right: when it reaches
    index [i] the entries before [i] have their final value and the entries
    from [i] on are the original ones. *)
Lemma extend_loop_lookup (vert : list IRect) (width : Z) (v img : list IRect)
    (bboxes : list IRect) (i : nat) (bb : IRect) :
  bboxes !! i = Some bb ->
  let res :=
    foldl (extend_at vert width v img) bboxes (seq 0 (length bboxes)) in
  res !! i =
  Some (if extends_at vert width v img (take i res ++ drop i bboxes) bb
        then set_x1 bb width else bb).
Proof.
  intros Hi res.
  assert (Hlt : (i < length bboxes)%nat) by (eapply lookup_lt_Some; eauto).
  assert (Hseq : seq 0 (length bboxes) =
                 seq 0 i ++ i :: seq (S i) (length bboxes - S i)).
  { replace (length bboxes) with (i + S (length bboxes - S i))%nat at 1
      by lia.
    rewrite seq_app. reflexivity. }
  set (c := foldl (extend_at vert width v img) bboxes (seq 0 i)).
  assert (Hres : res = foldl (extend_at vert width v img)
                         (extend_at vert width v img c i)
                         (seq (S i) (length bboxes - S i))).
  { unfold res, c. rewrite Hseq, foldl_app. reflexivity. }
  assert (Hafter : forall j, (j <= i)%nat ->
            res !! j = extend_at vert width v img c i !! j).
  { intros j Hj. rewrite Hres. apply extend_loop_lookup_notin.
    rewrite elem_of_seq. lia. }
  assert (Hbefore : forall j, (i <= j)%nat -> c !! j = bboxes !! j).
  { intros j Hj. unfold c. apply extend_loop_lookup_notin.
    rewrite elem_of_seq. lia. }
  assert (Hc : c = take i res ++ drop i bboxes).
  { apply list_eq. intros j.
    assert (Hlen : length (take i res) = i).
    { apply length_take_le. unfold res. rewrite extend_loop_length. lia. }
    destruct (Nat.lt_ge_cases j i) as [Hj|Hj].
    - rewrite lookup_app_l by lia. rewrite lookup_take_lt by exact Hj.
      rewrite Hafter by lia. symmetry. apply extend_at_lookup_ne. lia.
    - rewrite lookup_app_r by lia. rewrite Hlen, lookup_drop.
      replace (i + (j - i))%nat with j by lia. apply Hbefore, Hj. }
  rewrite Hafter by lia. rewrite <- Hc.
  apply extend_at_lookup_eq. rewrite Hbefore by lia. exact Hi.
Qed.

Lemma extend_right_unfold (vert bboxes : list IRect) (width : Z)
    (v img : list IRect) :
  extend_right vert bboxes width v img =
  foldl (extend_at vert width v img) bboxes (seq 0 (length bboxes)).
Proof. unfold extend_right. apply not_none_Some. Qed.

(** X1: right extension decides the entries from left to right.  The entry
    at index [i] is widened exactly when it is not inside an image, its
    widened copy meets no obstacle, and the widened copy is compatible with
    the list made of the final entries before [i] and the original entries
    from [i] on; otherwise it is returned as it is. *)
Theorem extend_right_left_to_right (vert bboxes : list IRect) (width : Z)
    (v img : list IRect) (i : nat) (bb : IRect) :
  bboxes !! i = Some bb ->
  extend_right vert bboxes width v img !! i =
  Some (if extends_at vert width v img
             (take i (extend_right vert bboxes width v img) ++
              drop i bboxes) bb
        then set_x1 bb width else bb).
Proof.
  intros Hi. rewrite !extend_right_unfold.
  apply (extend_loop_lookup vert width v img bboxes i bb Hi).
Qed.

(** X2: right extension never widens a rectangle that lies inside an image
    rectangle, nor one whose widened copy meets a vertical-text or image
    rectangle: such an entry is returned unchanged. *)
Theorem extend_right_never_through_obstacles (vert bboxes : list IRect)
    (width : Z) (v img : list IRect) (i : nat) (bb : IRect) :
  bboxes !! i = Some bb ->
  in_bbox bb img = true \/
  intersects_bboxes (set_x1 bb width) (v ++ img) = true ->
  extend_right vert bboxes width v img !! i = Some bb.
Proof.
  intros Hi Hobst. rewrite !extend_right_unfold.
  rewrite (extend_loop_lookup vert width v img bboxes i bb Hi).
  unfold extends_at.
  destruct Hobst as [-> | ->]; [reflexivity|].
  rewrite andb_false_r. reflexivity.
Qed.

(** X3: when filtering leaves a single candidate [r], the result is one
    rectangle: [r] widened to the page width, or [r] itself when it lies
    inside an image or its widened copy meets an obstacle. *)
Theorem single_candidate_column (page : Page) (fm hm : Z) (nit : bool)
    (st : filtered) (r : IRect) :
  filter_blocks nit (image_rects page)
    (get_text_blocks page (page_clip page fm hm)) (mkFiltered [] []) = Ok st ->
  f_bboxes st = [r] ->
  column_boxes page fm hm nit =
  Ok [if in_bbox r (image_rects page) ||
         intersects_bboxes (set_x1 r (rect_width (rect page)))
           (f_vert st ++ image_rects page)
      then r else set_x1 r (rect_width (rect page))].
Proof.
  intros Hf Hb. unfold column_boxes, columns_of.
  rewrite Hf, bind_Ok, Hb. cbn [sorted insert_sorted].
  rewrite extend_right_unfold. cbn [length seq foldl].
  rewrite extend_at_unfold. cbn [lookup list_lookup].
  unfold extends_at. cbn [fmap list_fmap can_extend].
  unfold entry_ok. rewrite irect_eqb_refl. cbn [orb].
  rewrite intersects_bboxes_app.
  destruct (in_bbox r (image_rects page)); [reflexivity|].
  destruct (intersects_bboxes (set_x1 r (rect_width (rect page)))
              (f_vert st)); [reflexivity|].
  destruct (intersects_bboxes (set_x1 r (rect_width (rect page)))
              (image_rects page)); reflexivity.
Qed.

(** ** Candidate filtering: what the two lists hold *)

Lemma build_srect_Ok_spans (lines : list Line) (srect r : IRect) :
  build_srect lines srect = Ok r ->
  Forall (fun l => is_Some (l_spans l)) lines.
Proof.
  revert srect. induction lines as [|line rest IH]; intros srect; simpl;
    [constructor|].
  destruct (l_spans line) as [spans|] eqn:E; [|discriminate].
  intros H. constructor; [rewrite E; eauto | eapply IH; eauto].
Qed.

(** The outcomes of one round of the block loop that returns. *)
Lemma filter_block_Ok (nit : bool) (img : list IRect) (st st' : filtered)
    (b : Block) :
  filter_block nit img st b = Ok st' ->
  st' = st \/
  (vertical_of [b] (b_bbox b) /\
   st' = mkFiltered (f_bboxes st) (f_vert st ++ [b_bbox b])) \/
  (exists r, candidate_of [b] r /\
     st' = mkFiltered (f_bboxes st ++ [r]) (f_vert st)).
Proof.
  unfold filter_block.
  destruct (nit && in_bbox (b_bbox b) img); [intros [= <-]; auto|].
  destruct (b_lines b) as [[|line0 rest]|] eqn:El;
    [intros [= <-]; auto | | discriminate].
  destruct (bool_decide (l_dir line0 = (1, 0))) eqn:Ed; cbn [negb].
  - apply bool_decide_eq_true_1 in Ed.
    destruct (build_srect (line0 :: rest) EMPTY_IRECT) as [srect|e] eqn:Eb;
      [|discriminate].
    rewrite bind_Ok.
    pose proof (build_srect_Ok_spans _ _ _ Eb) as Hs.
    rewrite (build_srect_foldl _ _ Hs) in Eb. injection Eb as Eb.
    destruct (is_empty srect) eqn:Ee; cbn [negb]; intros [= <-]; [auto|].
    right; right. exists srect. split; [|reflexivity].
    split; [exact Ee|]. exists b, line0, rest.
    split; [apply list_elem_of_here|]. auto.
  - apply bool_decide_eq_false_1 in Ed. intros [= <-]. right; left.
    split; [|reflexivity]. exists b, line0, rest.
    split; [apply list_elem_of_here|]. auto.
Qed.

Lemma candidate_of_mono (blocks blocks' : list Block) (r : IRect) :
  (forall b, b ∈ blocks -> b ∈ blocks') ->
  candidate_of blocks r -> candidate_of blocks' r.
Proof.
  intros Hsub [He (b & line0 & rest & Hb & H)].
  split; [exact He|]. exists b, line0, rest. split; [apply Hsub, Hb | exact H].
Qed.

Lemma vertical_of_mono (blocks blocks' : list Block) (v : IRect) :
  (forall b, b ∈ blocks -> b ∈ blocks') ->
  vertical_of blocks v -> vertical_of blocks' v.
Proof.
  intros Hsub (b & line0 & rest & Hb & H).
  exists b, line0, rest. split; [apply Hsub, Hb | exact H].
Qed.

(** What the block loop adds to its two lists. *)
Lemma filter_blocks_added (nit : bool) (img : list IRect)
    (blocks : list Block) (st0 st : filtered) :
  filter_blocks nit img blocks st0 = Ok st ->
  exists newc newv,
    f_bboxes st = f_bboxes st0 ++ newc /\
    f_vert st = f_vert st0 ++ newv /\
    Forall (candidate_of blocks) newc /\
    Forall (vertical_of blocks) newv /\
    (length newc + length newv <= length blocks)%nat.
Proof.
  revert st0. induction blocks as [|b rest IH]; intros st0; simpl.
  - intros [= <-]. exists [], []. rewrite !app_nil_r.
    repeat split; auto.
  - destruct (filter_block nit img st0 b) as [st1|e] eqn:E1;
      [rewrite bind_Ok | discriminate].
    intros H. destruct (IH _ H) as (nc & nv & Hc & Hv & HFc & HFv & Hlen).
    assert (Hrest : forall x, x ∈ rest -> x ∈ b :: rest)
      by (intros x Hx; apply list_elem_of_further, Hx).
    assert (Hhere : forall x : Block, x ∈ [b] -> x ∈ b :: rest).
    { intros x Hx. apply list_elem_of_singleton in Hx as ->.
      apply list_elem_of_here. }
    pose proof (Forall_impl _ _ _ HFc
                  (fun r => candidate_of_mono rest (b :: rest) r Hrest))
      as HFc'.
    pose proof (Forall_impl _ _ _ HFv
                  (fun r => vertical_of_mono rest (b :: rest) r Hrest))
      as HFv'.
    destruct (filter_block_Ok _ _ _ _ _ E1)
      as [->|[[Hvert ->]|(r & Hcand & ->)]].
    + exists nc, nv.
      split; [exact Hc|]. split; [exact Hv|]. split; [exact HFc'|].
      split; [exact HFv' | lia].
    + exists nc, (b_bbox b :: nv). cbn [f_bboxes f_vert] in *.
      split; [exact Hc|]. split; [rewrite Hv, <- app_assoc; reflexivity|].
      split; [exact HFc'|]. split; [|simpl; lia].
      constructor; [|exact HFv'].
      eapply vertical_of_mono; [exact Hhere | exact Hvert].
    + exists (r :: nc), nv. cbn [f_bboxes f_vert] in *.
      split; [rewrite Hc, <- app_assoc; reflexivity|]. split; [exact Hv|].
      split; [|split; [exact HFv' | simpl; lia]].
      constructor; [|exact HFc'].
      eapply candidate_of_mono; [exact Hhere | exact Hcand].
Qed.


(** X5: every vertical-text rectangle that filtering records is the
    rectangle of an input block whose first line is not horizontal, and the
    two lists together hold at most one rectangle per input block. *)
Theorem filter_blocks_verticals (nit : bool) (img : list IRect)
    (blocks : list Block) (st : filtered) :
  filter_blocks nit img blocks (mkFiltered [] []) = Ok st ->
  Forall (vertical_of blocks) (f_vert st) /\
  (length (f_bboxes st) + length (f_vert st) <= length blocks)%nat.
Proof.
  intros H.
  destruct (filter_blocks_added _ _ _ _ _ H)
    as (nc & nv & Hc & Hv & _ & HFv & Hlen).
  rewrite Hc, Hv. split; [exact HFv | exact Hlen].
Qed.

Lemma filter_blocks_no_image_text (img : list IRect) (blocks : list Block)
    (st : filtered) :
  filter_blocks false img blocks st = filter_blocks false [] blocks st.
Proof.
  revert st. induction blocks as [|b rest IH]; intros st; simpl;
    [reflexivity|].
  change (filter_block false img st b) with (filter_block false [] st b).
  destruct (filter_block false [] st b) as [st'|e]; [|reflexivity].
  rewrite !bind_Ok. apply IH.
Qed.

(** X6: with [no_image_text] set, a block whose rectangle lies inside an
    image rectangle is skipped before any of its keys is read, so the result
    is the same as without the block, whatever the block holds; with
    [no_image_text] unset the image rectangles play no part in filtering. *)
Theorem block_inside_image_skipped (img : list IRect) (b : Block) :
  in_bbox (b_bbox b) img = true ->
  (forall pre post st,
     filter_blocks true img (pre ++ b :: post) st =
     filter_blocks true img (pre ++ post) st) /\
  (forall width pre post,
     columns_of width img (pre ++ b :: post) true =
     columns_of width img (pre ++ post) true) /\
  (forall blocks st,
     filter_blocks false img blocks st = filter_blocks false [] blocks st).
Proof.
  intros Hin.
  assert (Hskip : forall pre post st,
            filter_blocks true img (pre ++ b :: post) st =
            filter_blocks true img (pre ++ post) st).
  { intros pre post st. rewrite !filter_blocks_app.
    destruct (filter_blocks true img pre st) as [st'|e]; [|reflexivity].
    rewrite !bind_Ok. cbn [filter_blocks]. unfold filter_block at 1.
    rewrite Hin. reflexivity. }
  split; [exact Hskip|]. split.
  - intros width pre post. unfold columns_of. rewrite Hskip. reflexivity.
  - intros blocks st. apply filter_blocks_no_image_text.
Qed.

(** ** Lines of whitespace *)

Lemma lstrip_all_space (s : list N) : all_space s = true -> lstrip s = [].
Proof.
  induction s as [|c s IH]; simpl; [reflexivity|].
  destruct (is_space c); simpl; [exact IH | discriminate].
Qed.

Lemma strip_all_space (s : list N) : all_space s = true -> strip s = [].
Proof.
  intros H. unfold strip. rewrite lstrip_all_space by exact H. reflexivity.
Qed.

Lemma concat_empty (l : list (list N)) :
  Forall (fun x => x = []) l -> concat l = [].
Proof.
  induction 1 as [|x xs -> _ IH]; [reflexivity|]. simpl. exact IH.
Qed.

Lemma line_text_blank (spans : list Span) :
  Forall (fun s => all_space (text s) = true) spans ->
  line_text spans = [].
Proof.
  intros H. unfold line_text. apply concat_empty, Forall_fmap.
  eapply Forall_impl; [exact H|].
  intros sp Hsp. apply strip_all_space, Hsp.
Qed.

Lemma build_srect_blank (lines : list Line) (srect : IRect) :
  Forall blank_line lines -> build_srect lines srect = Ok srect.
Proof.
  intros HF. revert srect.
  induction HF as [|line rest (spans & Hs & Hblank) _ IH]; intros srect;
    [reflexivity|].
  cbn [build_srect]. rewrite Hs, (line_text_blank _ Hblank). apply IH.
Qed.

(** X7: a block all of whose lines hold whitespace only (in any number of
    spans) raises nothing and adds no candidate rectangle. *)
Theorem blank_block_adds_no_candidate (nit : bool) (img : list IRect)
    (st : filtered) (b : Block) (lines : list Line) :
  b_lines b = Some lines ->
  Forall blank_line lines ->
  exists st',
    filter_block nit img st b = Ok st' /\ f_bboxes st' = f_bboxes st.
Proof.
  intros Hl Hblank. unfold filter_block. rewrite Hl.
  destruct (nit && in_bbox (b_bbox b) img); [eauto|].
  destruct lines as [|line0 rest]; [eauto|].
  destruct (negb (bool_decide (l_dir line0 = (1, 0)))); [eauto|].
  rewrite (build_srect_blank _ _ Hblank), bind_Ok.
  change (is_empty EMPTY_IRECT) with true. cbn [negb]. eauto.
Qed.

(** ** Cleanup: when it fails and what it keeps *)

Lemma adjacent_dedup_from_nil (a : IRect) (l : list IRect) :
  adjacent_dedup_from a l = [] <-> Forall (fun b => b = a) l.
Proof.
  revert a. induction l as [|b l IH]; intros a; simpl.
  - split; [constructor | reflexivity].
  - destruct (irect_eqb a b) eqn:E.
    + apply irect_eqb_eq in E as ->. rewrite IH. split.
      * intros H. constructor; [reflexivity | exact H].
      * intros H. apply Forall_cons_1 in H as [_ H]. exact H.
    + split; [discriminate|].
      intros H. apply Forall_cons_1 in H as [-> _].
      rewrite irect_eqb_refl in E. discriminate.
Qed.

Lemma drop_wrapped_nil (d : list IRect) :
  drop_wrapped d = [] <-> d = [] \/ exists a, d = [a].
Proof.
  unfold drop_wrapped. destruct d as [|a t].
  - split; [auto | reflexivity].
  - destruct (last (a :: t)) as [z|] eqn:E;
      [|apply last_None in E; discriminate E].
    destruct t as [|b t].
    + simpl in E. injection E as <-. rewrite irect_eqb_refl.
      split; [eauto | reflexivity].
    + destruct (irect_eqb z a); split; try discriminate;
        intros [H|[c H]]; discriminate.
Qed.

Lemma dedup_result_nil (l : list IRect) :
  drop_wrapped (adjacent_dedup l) = [] <-> all_equal l.
Proof.
  rewrite drop_wrapped_nil. unfold all_equal. destruct l as [|a l]; simpl.
  - split; [exists EMPTY_IRECT; constructor | auto].
  - split.
    + intros [H|[c H]]; [discriminate|].
      injection H as <- H. apply adjacent_dedup_from_nil in H.
      exists a. constructor; [reflexivity | exact H].
    + intros [c H]. apply Forall_cons_1 in H as [-> H].
      right. exists c. f_equal. apply adjacent_dedup_from_nil, H.
Qed.

(** The cleanup raises exactly on a list of two or more entries that are all
    the same rectangle. *)
Lemma clean_nblocks_raise (l : list IRect) (e : exn) :
  clean_nblocks l = Raise e <->
  e = IndexError /\ (2 <= length l)%nat /\ all_equal l.
Proof.
  unfold clean_nblocks. destruct (length l <? 2)%nat eqn:E.
  - apply Nat.ltb_lt in E. split; [discriminate | intros (_ & H & _); lia].
  - apply Nat.ltb_ge in E. rewrite dedup_loop_adjacent, bind_Ok.
    rewrite <- dedup_result_nil.
    destruct (drop_wrapped (adjacent_dedup l)) as [|b d].
    + cbn. split; [intros [= <-]; auto | intros (-> & _); reflexivity].
    + rewrite repair_sequence_rows.
      split; [discriminate | intros (_ & _ & H); discriminate].
Qed.

(** X8: [clean_nblocks] raises [IndexError] exactly when the list has two
    or more entries that are all the same rectangle, and it raises nothing
    else. *)
Theorem clean_nblocks_fails_iff (l : list IRect) :
  (clean_nblocks l = Raise IndexError <->
   (2 <= length l)%nat /\ all_equal l) /\
  (forall e, clean_nblocks l = Raise e -> e = IndexError).
Proof.
  split.
  - rewrite clean_nblocks_raise. split; [intros (_ & H); exact H | auto].
  - intros e H. apply clean_nblocks_raise in H as [-> _]. reflexivity.
Qed.

Lemma concat_sorted_perm (rs : list (list IRect)) :
  concat (sorted le_x0 <$> rs) ≡ₚ concat rs.
Proof.
  induction rs as [|r rs IH]; simpl; [reflexivity|].
  rewrite IH, sorted_perm. reflexivity.
Qed.

Lemma rows_concat (l : list IRect) : concat (rows l) = l.
Proof. destruct l as [|b l]; [reflexivity | apply rows_from_concat]. Qed.

(** What a returning cleanup returns: a rearrangement of the list [kept]
    that the duplicate loop leaves, which is not empty when the loop ran. *)
Lemma clean_nblocks_Ok (l out : list IRect) :
  clean_nblocks l = Ok out ->
  exists kept,
    out = concat (sorted le_x0 <$> rows kept) /\ out ≡ₚ kept /\
    (((length l < 2)%nat /\ kept = l) \/
     ((2 <= length l)%nat /\ kept = drop_wrapped (adjacent_dedup l) /\
      kept <> [])).
Proof.
  intros H. destruct (clean_nblocks_inv l out H) as (kept & Hk & Ho).
  exists kept. split; [exact Ho|]. split.
  - rewrite Ho, concat_sorted_perm, rows_concat. reflexivity.
  - destruct Hk as [Hk|[Hlen Hd]]; [left; exact Hk|]. right.
    rewrite dedup_loop_adjacent in Hd. injection Hd as Hd.
    split; [exact Hlen|]. split; [symmetry; exact Hd|].
    intros ->. unfold clean_nblocks in H.
    apply Nat.ltb_ge in Hlen. rewrite Hlen in H.
    rewrite dedup_loop_adjacent, Hd in H. discriminate H.
Qed.

Lemma elem_of_adjacent_dedup_from (p r : IRect) (l : list IRect) :
  r ∈ l -> r = p \/ r ∈ adjacent_dedup_from p l.
Proof.
  revert p. induction l as [|b l IH]; intros p Hr; [inversion Hr|].
  assert (Hb : b = p \/ b ∈ adjacent_dedup_from p (b :: l)).
  { simpl. destruct (irect_eqb p b) eqn:E.
    - apply irect_eqb_eq in E. auto.
    - right. apply list_elem_of_here. }
  apply elem_of_cons in Hr as [->|Hr]; [exact Hb|].
  destruct (IH b Hr) as [->|Hin]; [exact Hb|].
  right. simpl. destruct (irect_eqb p b); [exact Hin|].
  apply list_elem_of_further, Hin.
Qed.

Lemma elem_of_adjacent_dedup (r : IRect) (l : list IRect) :
  r ∈ l -> r ∈ adjacent_dedup l.
Proof.
  destruct l as [|a l]; [auto|]. intros Hr. simpl.
  apply elem_of_cons in Hr as [->|Hr]; [apply list_elem_of_here|].
  destruct (elem_of_adjacent_dedup_from a r l Hr) as [->|H].
  - apply list_elem_of_here.
  - apply list_elem_of_further, H.
Qed.

Lemma elem_of_drop_wrapped (r : IRect) (d : list IRect) :
  drop_wrapped d <> [] -> r ∈ d -> r ∈ drop_wrapped d.
Proof.
  unfold drop_wrapped. destruct d as [|a t]; [auto|].
  destruct (last (a :: t)) as [z|] eqn:E; [|auto].
  destruct (irect_eqb z a) eqn:Ez; [|auto].
  apply irect_eqb_eq in Ez as ->. intros Ht Hr.
  apply elem_of_cons in Hr as [->|Hr]; [|exact Hr].
  destruct t as [|b t]; [congruence|].
  rewrite last_cons_cons in E. eapply last_Some_elem_of; eauto.
Qed.

Lemma length_adjacent_dedup_from (p : IRect) (l : list IRect) :
  (length (adjacent_dedup_from p l) <= length l)%nat.
Proof.
  revert p. induction l as [|b l IH]; intros p; simpl; [lia|].
  specialize (IH b). destruct (irect_eqb p b); simpl; lia.
Qed.

Lemma length_drop_wrapped_dedup (l : list IRect) :
  (length (drop_wrapped (adjacent_dedup l)) <= length l)%nat.
Proof.
  assert (H : (length (adjacent_dedup l) <= length l)%nat).
  { destruct l as [|a l]; simpl; [lia|].
    pose proof (length_adjacent_dedup_from a l). lia. }
  unfold drop_wrapped. destruct (adjacent_dedup l) as [|a t]; [lia|].
  destruct (last (a :: t)); [|exact H].
  destruct (irect_eqb i a); simpl in *; lia.
Qed.

(** The rectangles of a returning cleanup are those of its input. *)
Lemma clean_nblocks_elems (l out : list IRect) :
  clean_nblocks l = Ok out ->
  (forall r, r ∈ out <-> r ∈ l) /\ (length out <= length l)%nat.
Proof.
  intros H. split.
  - intros r. split; [apply (clean_nblocks_elem_of l out H)|].
    destruct (clean_nblocks_Ok l out H) as (kept & _ & Hp & Hk).
    rewrite Hp. destruct Hk as [[_ ->]|(_ & -> & Hne)]; [auto|].
    intros Hr. apply elem_of_drop_wrapped; [exact Hne|].
    apply elem_of_adjacent_dedup, Hr.
  - destruct (clean_nblocks_Ok l out H) as (kept & _ & Hp & Hk).
    rewrite (Permutation_length Hp).
    destruct Hk as [[_ ->]|(_ & -> & _)]; [lia|].
    apply length_drop_wrapped_dedup.
Qed.

(** X9: when [clean_nblocks] returns, its result holds exactly the
    rectangles of its input (as a set: only copies are removed) and is not
    longer than the input. *)
Theorem clean_nblocks_keeps_rectangles (l out : list IRect) :
  clean_nblocks l = Ok out ->
  (forall r, r ∈ out <-> r ∈ l) /\ (length out <= length l)%nat.
Proof. apply clean_nblocks_elems. Qed.

Lemma adjacent_dedup_from_id (p : IRect) (l : list IRect) :
  no_adjacent_equal (p :: l) -> adjacent_dedup_from p l = l.
Proof.
  revert p. induction l as [|b l IH]; intros p H; simpl; [reflexivity|].
  destruct (irect_eqb p b) eqn:E.
  - apply irect_eqb_eq in E. exfalso. apply (H 0%nat p b); auto.
  - f_equal. apply IH. intros i x y Hx Hy. apply (H (S i) x y); auto.
Qed.

(** X10: on a list in which no entry equals the entry before it and, when
    it has two or more entries, the first differs from the last, the
    cleanup returns, and its result is a rearrangement of the list: the
    rows of the list, each sorted by left edge. *)
Theorem clean_nblocks_without_duplicates (l : list IRect) :
  no_adjacent_equal l ->
  (forall a z,
     (2 <= length l)%nat -> head l = Some a -> last l = Some z -> a <> z) ->
  clean_nblocks l = Ok (concat (sorted le_x0 <$> rows l)) /\
  concat (sorted le_x0 <$> rows l) ≡ₚ l.
Proof.
  intros Hadj Hwrap.
  split; [|rewrite concat_sorted_perm, rows_concat; reflexivity].
  unfold clean_nblocks. destruct (length l <? 2)%nat eqn:E.
  - apply Nat.ltb_lt in E.
    destruct l as [|a [|b l]]; simpl in E; try lia; reflexivity.
  - apply Nat.ltb_ge in E. rewrite dedup_loop_adjacent, bind_Ok.
    destruct l as [|a t]; [simpl in E; lia|].
    assert (Hd : adjacent_dedup (a :: t) = a :: t).
    { simpl. f_equal. apply adjacent_dedup_from_id, Hadj. }
    rewrite Hd. unfold drop_wrapped.
    destruct (last (a :: t)) as [z|] eqn:Ez;
      [|apply last_None in Ez; discriminate Ez].
    destruct (irect_eqb z a) eqn:Eq.
    + apply irect_eqb_eq in Eq as ->. exfalso.
      apply (Hwrap a a E eq_refl eq_refl). reflexivity.
    + apply repair_sequence_rows.
Qed.

(** X11: [column_boxes] raises [KeyError] exactly when candidate filtering
    does, and [IndexError] exactly when filtering returns and the merged
    list has two or more entries that are all the same rectangle. *)
Theorem column_boxes_errors (page : Page) (fm hm : Z) (nit : bool) :
  (column_boxes page fm hm nit = Raise KeyError <->
   filter_blocks nit (image_rects page)
     (get_text_blocks page (page_clip page fm hm)) (mkFiltered [] []) =
     Raise KeyError) /\
  (column_boxes page fm hm nit = Raise IndexError <->
   exists st b0 rest,
     filter_blocks nit (image_rects page)
       (get_text_blocks page (page_clip page fm hm)) (mkFiltered [] []) =
       Ok st /\
     extend_right (f_vert st) (sorted le_top_left (f_bboxes st))
       (rect_width (rect page)) (f_vert st) (image_rects page) =
       b0 :: rest /\
     (2 <= length (join_columns (f_vert st) b0 rest))%nat /\
     all_equal (join_columns (f_vert st) b0 rest)).
Proof.
  unfold column_boxes, columns_of.
  destruct (filter_blocks nit (image_rects page)
              (get_text_blocks page (page_clip page fm hm))
              (mkFiltered [] [])) as [st|e] eqn:Ef.
  - rewrite bind_Ok.
    destruct (extend_right (f_vert st) (sorted le_top_left (f_bboxes st))
                (rect_width (rect page)) (f_vert st) (image_rects page))
      as [|b0 rest] eqn:Ee.
    + split; split; try discriminate.
      intros (st' & b & r & [= <-] & H & _). congruence.
    + split.
      * split; [|discriminate].
        intros H. apply clean_nblocks_raise in H as [H _]. discriminate H.
      * rewrite clean_nblocks_raise. split.
        -- intros (_ & Hlen & Heq). exists st, b0, rest. rewrite Ee. auto.
        -- intros (st' & b & r & [= <-] & H & Hlen & Heq).
           rewrite Ee in H. injection H as <- <-. auto.
  - apply filter_blocks_exn in Ef as Hk. subst e. rewrite bind_Raise.
    split; [split; reflexivity|].
    split; [discriminate|]. intros (st' & b & r & H & _). discriminate H.
Qed.

(** ** Column merging: size and coverage *)

Lemma join_step_length (vert : list IRect) (i : nat) (bb : IRect)
    (nblocks : list IRect) (bboxes : list (option IRect)) :
  (length nblocks <= length (join_step vert i bb nblocks bboxes).1 <=
   length nblocks + 2)%nat.
Proof.
  destruct (join_step_cases vert i bb nblocks bboxes)
    as [(j & nbb & _ & _ & _ & _ & ->)|[->|[_ ->]]].
  - rewrite length_insert. lia.
  - rewrite length_app. simpl. lia.
  - rewrite length_app. simpl. lia.
Qed.

Lemma join_loop_length (vert : list IRect) (todo : list IRect) (i : nat)
    (nblocks : list IRect) (bboxes : list (option IRect)) :
  (length nblocks <= length (join_loop vert i todo nblocks bboxes) <=
   length nblocks + 2 * length todo)%nat.
Proof.
  revert i nblocks bboxes.
  induction todo as [|bb rest IH]; intros i nblocks bboxes; simpl; [lia|].
  pose proof (join_step_length vert i bb nblocks bboxes) as Hs.
  destruct (join_step vert i bb nblocks bboxes) as [nb' bx'].
  simpl in Hs. specialize (IH (S i) nb' bx'). lia.
Qed.

(** X12: the merged list is never empty and has at most two entries for
    each rectangle after the first. *)
Theorem join_columns_length (vert : list IRect) (b0 : IRect)
    (rest : list IRect) :
  (1 <= length (join_columns vert b0 rest) <= 1 + 2 * length rest)%nat.
Proof.
  unfold join_columns.
  pose proof (join_loop_length vert rest 0 [b0] (Some <$> rest)) as H.
  simpl in H. lia.
Qed.

(** X13: when filtering leaves at least one candidate and [column_boxes]
    returns, the result is not empty. *)
Theorem column_boxes_some_column (page : Page) (fm hm : Z) (nit : bool)
    (st : filtered) (out : list IRect) :
  filter_blocks nit (image_rects page)
    (get_text_blocks page (page_clip page fm hm)) (mkFiltered [] []) = Ok st ->
  f_bboxes st <> [] ->
  column_boxes page fm hm nit = Ok out ->
  out <> [].
Proof.
  intros Hf Hne. unfold column_boxes, columns_of. rewrite Hf, bind_Ok.
  destruct (extend_right (f_vert st) (sorted le_top_left (f_bboxes st))
              (rect_width (rect page)) (f_vert st) (image_rects page))
    as [|b0 rest] eqn:Ee.
  - apply (f_equal length) in Ee.
    rewrite extend_right_length, length_sorted in Ee.
    destruct (f_bboxes st); [congruence | discriminate Ee].
  - intros Hc ->.
    pose proof (join_loop_length (f_vert st) rest 0 [b0] (Some <$> rest))
      as Hlen.
    destruct (join_columns (f_vert st) b0 rest) as [|c m] eqn:Ej.
    + unfold join_columns in Ej. rewrite Ej in Hlen. simpl in Hlen. lia.
    + destruct (clean_nblocks_elems _ _ Hc) as [Hel _].
      assert (Hin : c ∈ @nil IRect) by (apply Hel, list_elem_of_here).
      inversion Hin.
Qed.

Lemma is_empty_false (r : IRect) :
  is_empty r = false <-> x0 r < x1 r /\ y0 r < y1 r.
Proof. unfold is_empty. rewrite orb_false_iff, !Z.leb_gt. tauto. Qed.

Lemma contains_true (a r : IRect) :
  contains a r = true <->
  x0 a <= x0 r /\ x0 r <= x1 r /\ x1 r <= x1 a /\
  y0 a <= y0 r /\ y0 r <= y1 r /\ y1 r <= y1 a.
Proof. unfold contains. rewrite !andb_true_iff, !Z.leb_le. tauto. Qed.

Lemma contains_trans (a b c : IRect) :
  contains a b = true -> contains b c = true -> contains a c = true.
Proof. rewrite !contains_true. lia. Qed.

Lemma contains_refl (r : IRect) : is_empty r = false -> contains r r = true.
Proof. rewrite is_empty_false, contains_true. lia. Qed.

Lemma irect_or_contains_l (bb nbb : IRect) :
  is_empty bb = false -> contains (irect_or bb nbb) bb = true.
Proof.
  intros H. unfold irect_or. destruct (is_empty nbb);
    [apply contains_refl, H|].
  rewrite H. apply is_empty_false in H. apply contains_true. simpl. lia.
Qed.

Lemma irect_or_contains_r (bb nbb : IRect) :
  is_empty nbb = false -> contains (irect_or bb nbb) nbb = true.
Proof.
  intros H. unfold irect_or. rewrite H. destruct (is_empty bb);
    [apply contains_refl, H|].
  apply is_empty_false in H. apply contains_true. simpl. lia.
Qed.

Lemma irect_or_nonempty (bb nbb : IRect) :
  is_empty nbb = false -> is_empty (irect_or bb nbb) = false.
Proof.
  intros H. unfold irect_or. rewrite H.
  destruct (is_empty bb) eqn:E; [exact H|].
  apply is_empty_false in H, E. apply is_empty_false. simpl. lia.
Qed.

Lemma covered_app (cols more : list IRect) (r : IRect) :
  covered cols r -> covered (cols ++ more) r.
Proof.
  intros (c & Hc & H). exists c. split; [|exact H].
  apply elem_of_app. auto.
Qed.

(** One round of the merging loop keeps every column non-empty, keeps
    covered what was covered, and covers [bb]. *)
Lemma join_step_covers (vert : list IRect) (i : nat) (bb : IRect)
    (nblocks : list IRect) (bboxes : list (option IRect)) :
  Forall (fun r => is_empty r = false) nblocks ->
  is_empty bb = false ->
  Forall (fun r => is_empty r = false)
    (join_step vert i bb nblocks bboxes).1 /\
  (forall r, covered nblocks r ->
     covered (join_step vert i bb nblocks bboxes).1 r) /\
  covered (join_step vert i bb nblocks bboxes).1 bb.
Proof.
  intros HF Hbb.
  assert (Hself : covered [bb] bb).
  { exists bb. split; [apply list_elem_of_here | apply contains_refl, Hbb]. }
  destruct (join_step_cases vert i bb nblocks bboxes)
    as [(j & nbb & Hj & _ & _ & _ & ->)|[->|[_ ->]]].
  - assert (Hnbb : is_empty nbb = false)
      by (eapply Forall_lookup_1 in HF; eauto).
    assert (Hu : irect_or bb nbb ∈ <[j := irect_or bb nbb]> nblocks).
    { apply list_elem_of_insert. eapply lookup_lt_Some; eauto. }
    split; [|split].
    + apply Forall_insert; [exact HF | apply irect_or_nonempty, Hnbb].
    + intros r (c & Hc & Hr).
      apply list_elem_of_lookup_1 in Hc as [k Hk].
      destruct (decide (j = k)) as [->|Hne].
      * assert (c = nbb) by congruence. subst c.
        exists (irect_or bb nbb). split; [exact Hu|].
        eapply contains_trans; [apply irect_or_contains_r, Hnbb | exact Hr].
      * exists c. split; [|exact Hr].
        eapply list_elem_of_lookup_2.
        rewrite list_lookup_insert_ne by exact Hne. exact Hk.
    + exists (irect_or bb nbb).
      split; [exact Hu | apply irect_or_contains_l, Hbb].
  - split; [|split].
    + apply Forall_app; split; [exact HF | repeat constructor; exact Hbb].
    + intros r. apply covered_app.
    + destruct Hself as (c & Hc & H). exists c. split; [|exact H].
      apply elem_of_app. auto.
  - split; [|split].
    + apply Forall_app; split; [exact HF | repeat constructor; exact Hbb].
    + intros r. apply covered_app.
    + destruct Hself as (c & Hc & H). exists c. split; [|exact H].
      apply elem_of_app. right. apply list_elem_of_singleton in Hc as ->.
      apply list_elem_of_here.
Qed.

Lemma join_loop_covers (vert : list IRect) (todo : list IRect) (i : nat)
    (nblocks : list IRect) (bboxes : list (option IRect)) (r : IRect) :
  Forall (fun c => is_empty c = false) nblocks ->
  Forall (fun c => is_empty c = false) todo ->
  covered nblocks r \/ r ∈ todo ->
  covered (join_loop vert i todo nblocks bboxes) r.
Proof.
  revert i nblocks bboxes.
  induction todo as [|bb rest IH]; intros i nblocks bboxes HF Htodo Hr; simpl.
  - destruct Hr as [Hr|Hr]; [exact Hr | inversion Hr].
  - apply Forall_cons_1 in Htodo as [Hbb Hrest].
    destruct (join_step_covers vert i bb nblocks bboxes HF Hbb)
      as (HF' & Hkeep & Hnew).
    destruct (join_step vert i bb nblocks bboxes) as [nb' bx'].
    simpl in HF', Hkeep, Hnew. apply IH; [exact HF' | exact Hrest|].
    destruct Hr as [Hr|Hr]; [left; apply Hkeep, Hr|].
    apply elem_of_cons in Hr as [->|Hr]; [left; exact Hnew | right; exact Hr].
Qed.

(** X14: merging loses no rectangle.  When the rectangles to merge are not
    empty, each of them lies within some rectangle of the merged list, and
    within some rectangle of the list that a returning cleanup makes of
    it. *)
Theorem join_columns_covers (vert : list IRect) (b0 : IRect)
    (rest : list IRect) (r : IRect) :
  Forall (fun c => is_empty c = false) (b0 :: rest) ->
  r ∈ b0 :: rest ->
  covered (join_columns vert b0 rest) r /\
  (forall out,
     clean_nblocks (join_columns vert b0 rest) = Ok out -> covered out r).
Proof.
  intros HF Hr. apply Forall_cons_1 in HF as [Hb0 Hrest].
  assert (Hcov : covered (join_columns vert b0 rest) r).
  { unfold join_columns. apply join_loop_covers.
    - constructor; [exact Hb0 | constructor].
    - exact Hrest.
    - apply elem_of_cons in Hr as [->|Hr]; [left | right; exact Hr].
      exists b0. split; [apply list_elem_of_here | apply contains_refl, Hb0]. }
  split; [exact Hcov|].
  intros out Hout. destruct Hcov as (c & Hc & H).
  exists c. split; [|exact H].
  apply (clean_nblocks_elems _ _ Hout). exact Hc.
Qed.

(** ** The compatibility test and consumed entries *)

Lemma can_extend_app (vert : list IRect) (temp bb : IRect)
    (l1 l2 : list (option IRect)) :
  can_extend vert temp bb (l1 ++ l2) =
  can_extend vert temp bb l1 && can_extend vert temp bb l2.
Proof.
  induction l1 as [|b l1 IH]; simpl; [reflexivity|].
  destruct (entry_ok vert temp bb b); [exact IH | reflexivity].
Qed.

Lemma can_extend_drop_none (vert : list IRect) (temp bb : IRect)
    (l : list (option IRect)) :
  intersects_bboxes temp vert = false ->
  can_extend vert temp bb l = can_extend vert temp bb (Some <$> not_none l).
Proof.
  intros Hv. induction l as [|[c|] l IH]; [reflexivity| |].
  - cbn. destruct (entry_ok vert temp bb (Some c)); [exact IH | reflexivity].
  - cbn. unfold entry_ok. rewrite Hv. exact IH.
Qed.

(** X15: the test on a concatenation is the conjunction of the tests on
    the parts, and consumed entries ([None]) never change the verdict as
    long as the candidate meets no vertical-text rectangle or the list
    holds a rectangle. *)
Theorem can_extend_consumed_entries (vert : list IRect) (temp bb : IRect)
    (l : list (option IRect)) :
  (forall l1 l2,
     can_extend vert temp bb (l1 ++ l2) =
     can_extend vert temp bb l1 && can_extend vert temp bb l2) /\
  (intersects_bboxes temp vert = false \/ not_none l <> [] ->
   can_extend vert temp bb l = can_extend vert temp bb (Some <$> not_none l)).
Proof.
  split; [intros l1 l2; apply can_extend_app|].
  destruct (intersects_bboxes temp vert) eqn:Hv;
    [|intros _; apply can_extend_drop_none, Hv].
  intros [H|Hne]; [discriminate|].
  assert (Hl : l <> []) by (intros ->; apply Hne; reflexivity).
  assert (Hl' : Some <$> not_none l <> []).
  { destruct (not_none l); [congruence | discriminate]. }
  destruct (can_extend vert temp bb l) eqn:E1.
  { rewrite (can_extend_no_vert _ _ _ _ Hl E1) in Hv. discriminate. }
  destruct (can_extend vert temp bb (Some <$> not_none l)) eqn:E2;
    [|reflexivity].
  rewrite (can_extend_no_vert _ _ _ _ Hl' E2) in Hv. discriminate.
Qed.

(** ** Column merging: a new column *)

Lemma scan_nblocks_disjoint (vert : list IRect) (bb : IRect)
    (nblocks todo : list IRect) (j : nat) :
  Forall (h_disjoint bb) todo ->
  scan_nblocks vert bb nblocks j todo = None.
Proof.
  intros HF. revert j.
  induction HF as [|nbb rest Hd _ IH]; intros j; simpl; [reflexivity|].
  assert (E : (x1 nbb <? x0 bb) || (x1 bb <? x0 nbb) = true).
  { apply orb_true_iff. rewrite !Z.ltb_lt. exact Hd. }
  rewrite E. apply IH.
Qed.

(** X16: a rectangle whose horizontal span is disjoint from the span of
    every column starts a new column: the round appends it and leaves every
    column as it is.  It is appended a second time when it fails the
    compatibility test against the list of remaining rectangles. *)
Theorem join_step_new_column (vert : list IRect) (i : nat) (bb : IRect)
    (nblocks : list IRect) (bboxes : list (option IRect)) :
  Forall (h_disjoint bb) nblocks ->
  (join_step vert i bb nblocks bboxes).1 =
  if can_extend vert bb bb bboxes then nblocks ++ [bb]
  else nblocks ++ [bb; bb].
Proof.
  intros HF. unfold join_step.
  rewrite (scan_nblocks_disjoint vert bb nblocks nblocks 0 HF).
  destruct (can_extend vert bb bb bboxes); simpl.
  - rewrite length_app; simpl.
    replace (length nblocks + 1 - 1)%nat with (length nblocks + 0)%nat
      by lia.
    rewrite insert_app_r. reflexivity.
  - rewrite <- app_assoc. reflexivity.
Qed.

(** ** Further concrete runs *)

Lemma extend_right_left_to_right_witness :
  [mkIRect 0 0 100 100; mkIRect 150 0 300 100] !! 1%nat =
    Some (mkIRect 150 0 300 100) /\
  extend_right [] [mkIRect 0 0 100 100; mkIRect 150 0 300 100] 400 [] []
    !! 1%nat =
  Some (if extends_at [] 400 [] []
             (take 1
                (extend_right []
                   [mkIRect 0 0 100 100; mkIRect 150 0 300 100] 400 [] []) ++
              drop 1 [mkIRect 0 0 100 100; mkIRect 150 0 300 100])
             (mkIRect 150 0 300 100)
        then set_x1 (mkIRect 150 0 300 100) 400
        else mkIRect 150 0 300 100).
Proof.
  split; [reflexivity|].
  apply (extend_right_left_to_right []
           [mkIRect 0 0 100 100; mkIRect 150 0 300 100] 400 [] [] 1
           (mkIRect 150 0 300 100)).
  reflexivity.
Defined.

Lemma extend_right_never_through_obstacles_witness :
  [mkIRect 50 50 150 150] !! 0%nat = Some (mkIRect 50 50 150 150) /\
  intersects_bboxes (set_x1 (mkIRect 50 50 150 150) 200)
    ([] ++ [mkIRect 0 0 100 100]) = true /\
  extend_right [] [mkIRect 50 50 150 150] 200 [] [mkIRect 0 0 100 100]
    !! 0%nat = Some (mkIRect 50 50 150 150).
Proof.
  split; [reflexivity|]. split; [reflexivity|].
  apply (extend_right_never_through_obstacles [] [mkIRect 50 50 150 150]
           200 [] [mkIRect 0 0 100 100] 0 (mkIRect 50 50 150 150));
    [reflexivity | right; reflexivity].
Defined.

Lemma single_candidate_column_witness :
  filter_blocks true []
    [text_block (mkIRect 0 0 300 100)] (mkFiltered [] []) =
    Ok (mkFiltered [mkIRect 0 0 300 100] []) /\
  column_boxes (page_of 400 200 [] [text_block (mkIRect 0 0 300 100)])
    0 0 true =
  Ok [if in_bbox (mkIRect 0 0 300 100) [] ||
         intersects_bboxes (set_x1 (mkIRect 0 0 300 100) 400) ([] ++ [])
      then mkIRect 0 0 300 100 else set_x1 (mkIRect 0 0 300 100) 400].
Proof.
  split; [reflexivity|].
  apply (single_candidate_column
           (page_of 400 200 [] [text_block (mkIRect 0 0 300 100)]) 0 0 true
           (mkFiltered [mkIRect 0 0 300 100] []) (mkIRect 0 0 300 100));
    reflexivity.
Defined.


Lemma filter_blocks_verticals_witness :
  filter_blocks true []
    [vertical_block (mkIRect 0 0 50 50); text_block (mkIRect 10 10 60 60)]
    (mkFiltered [] []) =
    Ok (mkFiltered [mkIRect 10 10 60 60] [mkIRect 0 0 50 50]) /\
  Forall
    (vertical_of
       [vertical_block (mkIRect 0 0 50 50); text_block (mkIRect 10 10 60 60)])
    [mkIRect 0 0 50 50].
Proof.
  split; [reflexivity|].
  apply (proj1 (filter_blocks_verticals true []
                  [vertical_block (mkIRect 0 0 50 50);
                   text_block (mkIRect 10 10 60 60)]
                  (mkFiltered [mkIRect 10 10 60 60] [mkIRect 0 0 50 50])
                  eq_refl)).
Defined.

Lemma block_inside_image_skipped_witness :
  in_bbox (b_bbox (mkBlock (mkIRect 10 10 20 20) None))
    [mkIRect 0 0 100 100] = true /\
  columns_of 400 [mkIRect 0 0 100 100]
    ([text_block (mkIRect 0 200 300 250)] ++
     mkBlock (mkIRect 10 10 20 20) None :: []) true =
  columns_of 400 [mkIRect 0 0 100 100]
    ([text_block (mkIRect 0 200 300 250)] ++ []) true.
Proof.
  split; [reflexivity|].
  apply (proj1 (proj2 (block_inside_image_skipped [mkIRect 0 0 100 100]
                         (mkBlock (mkIRect 10 10 20 20) None) eq_refl))).
Defined.

Lemma blank_block_adds_no_candidate_witness :
  exists st',
    filter_block true [] (mkFiltered [] [])
      (mkBlock (mkIRect 0 0 100 40)
         (Some [text_line (mkIRect 0 0 100 20) "  "%string;
                mkLine (mkIRect 0 20 10 40) (1, 0)
                  (Some [mkSpan [12288%N; 160%N]; mkSpan []])])) =
      Ok st' /\
    f_bboxes st' = f_bboxes (mkFiltered [] []).
Proof.
  apply (blank_block_adds_no_candidate true [] (mkFiltered [] [])
           (mkBlock (mkIRect 0 0 100 40)
              (Some [text_line (mkIRect 0 0 100 20) "  "%string;
                     mkLine (mkIRect 0 20 10 40) (1, 0)
                       (Some [mkSpan [12288%N; 160%N]; mkSpan []])]))
           _ eq_refl).
  repeat constructor; eexists; (split; [reflexivity | repeat constructor]).
Defined.

Lemma clean_nblocks_fails_iff_witness :
  (2 <= length [mkIRect 0 0 1 1; mkIRect 0 0 1 1])%nat /\
  all_equal [mkIRect 0 0 1 1; mkIRect 0 0 1 1] /\
  clean_nblocks [mkIRect 0 0 1 1; mkIRect 0 0 1 1] = Raise IndexError.
Proof.
  assert (H : (2 <= length [mkIRect 0 0 1 1; mkIRect 0 0 1 1])%nat /\
              all_equal [mkIRect 0 0 1 1; mkIRect 0 0 1 1]).
  { split; [simpl; lia|]. exists (mkIRect 0 0 1 1). repeat constructor. }
  split; [apply H|]. split; [apply H|].
  apply (proj2 (proj1 (clean_nblocks_fails_iff
                         [mkIRect 0 0 1 1; mkIRect 0 0 1 1])) H).
Defined.

Lemma clean_nblocks_keeps_rectangles_witness :
  clean_nblocks [mkIRect 0 0 1 1; mkIRect 5 50 6 60; mkIRect 0 0 1 1] =
    Ok [mkIRect 5 50 6 60; mkIRect 0 0 1 1] /\
  (forall r,
     r ∈ [mkIRect 5 50 6 60; mkIRect 0 0 1 1] <->
     r ∈ [mkIRect 0 0 1 1; mkIRect 5 50 6 60; mkIRect 0 0 1 1]) /\
  (length [mkIRect 5 50 6 60; mkIRect 0 0 1 1] <=
   length [mkIRect 0 0 1 1; mkIRect 5 50 6 60; mkIRect 0 0 1 1])%nat.
Proof.
  split; [reflexivity|].
  apply (clean_nblocks_keeps_rectangles
           [mkIRect 0 0 1 1; mkIRect 5 50 6 60; mkIRect 0 0 1 1]
           [mkIRect 5 50 6 60; mkIRect 0 0 1 1]).
  reflexivity.
Defined.

Lemma clean_nblocks_without_duplicates_witness :
  clean_nblocks
    [mkIRect 50 0 100 100; mkIRect 10 20 40 105; mkIRect 0 10 5 300] =
  Ok (concat (sorted le_x0 <$>
        rows [mkIRect 50 0 100 100; mkIRect 10 20 40 105;
              mkIRect 0 10 5 300])) /\
  concat (sorted le_x0 <$>
    rows [mkIRect 50 0 100 100; mkIRect 10 20 40 105; mkIRect 0 10 5 300])
  ≡ₚ [mkIRect 50 0 100 100; mkIRect 10 20 40 105; mkIRect 0 10 5 300].
Proof.
  apply (clean_nblocks_without_duplicates
           [mkIRect 50 0 100 100; mkIRect 10 20 40 105; mkIRect 0 10 5 300]).
  - intros i a b Ha Hb.
    destruct i as [|[|i]]; simpl in Ha, Hb;
      [injection Ha as <-; injection Hb as <-; discriminate
      |injection Ha as <-; injection Hb as <-; discriminate|].
    destruct i; discriminate Hb.
  - intros a z _ Ha Hz. simpl in Ha, Hz.
    injection Ha as <-. injection Hz as <-. discriminate.
Defined.

Lemma column_boxes_errors_witness :
  filter_blocks true []
    [mkBlock (mkIRect 10 10 20 20) None] (mkFiltered [] []) =
    Raise KeyError /\
  column_boxes (page_of 200 400 [] [mkBlock (mkIRect 10 10 20 20) None])
    0 0 true = Raise KeyError.
Proof.
  split; [reflexivity|].
  apply (proj2 (proj1 (column_boxes_errors
                         (page_of 200 400 []
                            [mkBlock (mkIRect 10 10 20 20) None])
                         0 0 true))).
  reflexivity.
Defined.

Lemma column_boxes_some_column_witness :
  column_boxes (page_of 400 200 [] [text_block (mkIRect 0 0 300 100)])
    0 0 true = Ok [mkIRect 0 0 400 100] /\
  [mkIRect 0 0 400 100] <> [].
Proof.
  split; [reflexivity|].
  apply (column_boxes_some_column
           (page_of 400 200 [] [text_block (mkIRect 0 0 300 100)]) 0 0 true
           (mkFiltered [mkIRect 0 0 300 100] []) [mkIRect 0 0 400 100]);
    [reflexivity | discriminate | reflexivity].
Defined.

Lemma join_columns_covers_witness :
  Forall (fun c => is_empty c = false)
    [mkIRect 0 0 100 10; mkIRect 0 90 100 100; mkIRect 150 0 300 100] /\
  covered
    (join_columns [] (mkIRect 0 0 100 10)
       [mkIRect 0 90 100 100; mkIRect 150 0 300 100])
    (mkIRect 0 90 100 100).
Proof.
  assert (H : Forall (fun c => is_empty c = false)
                [mkIRect 0 0 100 10; mkIRect 0 90 100 100;
                 mkIRect 150 0 300 100])
    by (repeat constructor).
  split; [exact H|].
  apply (proj1 (join_columns_covers [] (mkIRect 0 0 100 10)
                  [mkIRect 0 90 100 100; mkIRect 150 0 300 100]
                  (mkIRect 0 90 100 100) H
                  (list_elem_of_further _ _ _ (list_elem_of_here _ _)))).
Defined.

Lemma can_extend_consumed_entries_witness :
  not_none [None; Some (mkIRect 5 5 20 20)] <> [] /\
  can_extend [] (mkIRect 0 0 10 10) (mkIRect 0 0 8 10)
    [None; Some (mkIRect 5 5 20 20)] =
  can_extend [] (mkIRect 0 0 10 10) (mkIRect 0 0 8 10)
    (Some <$> not_none [None; Some (mkIRect 5 5 20 20)]).
Proof.
  split; [discriminate|].
  apply (proj2 (can_extend_consumed_entries [] (mkIRect 0 0 10 10)
                  (mkIRect 0 0 8 10) [None; Some (mkIRect 5 5 20 20)])).
  right. discriminate.
Defined.

Lemma join_step_new_column_witness :
  Forall (h_disjoint (mkIRect 150 0 300 100)) [mkIRect 0 0 100 100] /\
  (join_step [] 0 (mkIRect 150 0 300 100) [mkIRect 0 0 100 100]
     [Some (mkIRect 150 0 300 100)]).1 =
  [mkIRect 0 0 100 100; mkIRect 150 0 300 100].
Proof.
  assert (H : Forall (h_disjoint (mkIRect 150 0 300 100))
                [mkIRect 0 0 100 100]).
  { constructor; [left; simpl; lia | constructor]. }
  split; [exact H|].
  apply (join_step_new_column [] 0 (mkIRect 150 0 300 100)
           [mkIRect 0 0 100 100] [Some (mkIRect 150 0 300 100)] H).
Defined.
